(** * Heritaguessr: scoring, distance, shuffle and session logic of [src/App.tsx]

    The development embeds the pure core of the application:
    - [shuffleArray]       (App.tsx, lines 13-20), the Fisher-Yates shuffle;
    - [haversineDistance]  (lines 30-43), the great-circle distance in km;
    - [calculateScore]     (lines 45-48), the exponential-decay score;
    - [handleGuess]        (lines 135-158), the guess handler of [App].

    Number model.  A JavaScript [number] holding a coordinate, an angle or a
    distance is a real number of [Stdlib.Reals]: arithmetic is exact and there
    is neither NaN nor an infinity.  A [number] holding a round score, a total
    or the flag [isDone] is an integer ([Z]); array indices are [nat].  A
    result of [Math.random] is a rational number ([Q]), which keeps the
    shuffle computable.
    [Math.sin], [Math.cos], [Math.exp] and [Math.sqrt] are the real functions
    of the same name, [Math.atan2], [Math.floor] and [Math.round] are defined
    in module [Math] below from their ECMAScript descriptions.

    The program computes in binary64 doubles, and three differences matter
    to what is stated below.  Every operation rounds, so an equation between
    distances, or between a score and the rounding of an exact value, holds
    of the program only up to a margin; statements that need one carry it.
    [haversineDistance] is NaN when rounding lifts its [a] above 1, which
    happens for some guesses at the antipode of the target; the properties
    of its range and of its value as a great-circle distance assume
    [awayFromAntipode].  [calculateScore] of NaN is NaN;
    [calculateScore_f] embeds that function over binary64 floats, with the
    engine's [Math.exp] as the parameter [mathExp]. *)

From Stdlib Require Import Floats Qreals.
From Stdlib Require Import QArith Qround.
From Stdlib Require Import Reals Lra Lia ZArith String Permutation.
From Stdlib Require Import Machin DecimalString.
From stdpp Require Import base list.

Local Open Scope R_scope.

(** ** The [Math] functions the source calls *)

Module Math.

(** [Math.floor]: the greatest integer below or equal to the argument
    (the source calls it on a product with a result of [Math.random]). *)
Definition floor (x : Q) : Z := Qfloor x.

(** [Math.round]: the integer closest to the argument, the one closer to
    plus infinity when two are equally close. *)
Definition round (x : R) : Z := Zfloor (x + / 2).

(** [Math.atan2 y x]: the angle of the point [(x, y)], in [(-PI, PI]]. *)
Definition atan2 (y x : R) : R :=
  if Rlt_dec 0 x then atan (y / x)
  else if Rlt_dec x 0 then
    (if Rle_dec 0 y then atan (y / x) + PI else atan (y / x) - PI)
  else if Rlt_dec 0 y then PI / 2
  else if Rlt_dec y 0 then - (PI / 2)
  else 0.

End Math.

(** ** Data model *)

(** [interface Location { name; lat; lon }] *)
Record Location : Type := mkLocation {
  name : string;
  lat : R;
  lon : R
}.

(** The literal array passed to [shuffleArray] at module load (lines 22-28). *)
Definition catalog : list Location :=
  [ mkLocation "Fort Louisbourg" 45.8922 (-59.9855);
    mkLocation "Start of St. Lawrence Seaway" 42.891411 (-79.251964);
    mkLocation "Rideau Canal" 45.422164 (-75.691664);
    mkLocation "Plains of Abraham" 46.8015 (-71.2201);
    mkLocation "End of St. Lawrence Seaway" 45.508888 (-73.561668) ].

(** ** [shuffleArray] *)

Section Shuffle.

Context {T : Type}.

(** [Math.random] is a stream: its [k]-th call returns [random k]. *)
Variable random : nat -> Q.

(** The destructuring assignment
    [[shuffled[i], shuffled[j]] = [shuffled[j], shuffled[i]]]:
    both reads happen first, then [shuffled[i]] and [shuffled[j]] are
    written in this order.  [None] stands for an index outside the array
    (JavaScript would read [undefined] and grow the array). *)
Definition swap (shuffled : list T) (i : nat) (j : Z) : option (list T) :=
  if (j <? 0)%Z then None
  else
    match shuffled !! Z.to_nat j, shuffled !! i with
    | Some sj, Some si => Some (<[Z.to_nat j := si]> (<[i := sj]> shuffled))
    | _, _ => None
    end.

(** The loop [for (let i = ...; i > 0; i--)], entered with counter [i];
    [k] counts the calls to [Math.random] made so far. *)
Fixpoint shuffle_loop (i : nat) (k : nat) (shuffled : list T)
  : option (list T) :=
  match i with
  | O => Some shuffled
  | S i' =>
      let j := Math.floor (random k * inject_Z (Z.of_nat (i + 1)))%Q in
      match swap shuffled i j with
      | Some shuffled' => shuffle_loop i' (S k) shuffled'
      | None => None
      end
  end.

(** [shuffleArray]: the copy [[...array]] is the list itself, the loop
    starts at [shuffled.length - 1] (for the empty array the source starts
    at [-1] and the loop body never runs, as with [0] here). *)
Definition shuffleArray (array : list T) : option (list T) :=
  let shuffled := array in
  shuffle_loop (length shuffled - 1) 0 shuffled.

End Shuffle.

(** [const answers = shuffleArray([...])] (line 22). *)
Definition answers_of (random : nat -> Q) : option (list Location) :=
  shuffleArray random catalog.

(** ** [haversineDistance] and [calculateScore] *)

Definition haversineDistance (lat1 lon1 lat2 lon2 : R) : R :=
  let R := 6371e3 in
  let φ1 := lat1 * PI / 180 in
  let φ2 := lat2 * PI / 180 in
  let Δφ := (lat2 - lat1) * PI / 180 in
  let Δλ := (lon2 - lon1) * PI / 180 in
  let a := sin (Δφ / 2) * sin (Δφ / 2) +
           cos φ1 * cos φ2 *
           sin (Δλ / 2) * sin (Δλ / 2) in
  let c := 2 * Math.atan2 (sqrt a) (sqrt (1 - a)) in
  R * c / 1000.

(** The value the local constant [a] of [haversineDistance] takes. *)
Definition haversine_a (lat1 lon1 lat2 lon2 : R) : R :=
  sin ((lat2 - lat1) * PI / 180 / 2) * sin ((lat2 - lat1) * PI / 180 / 2) +
  cos (lat1 * PI / 180) * cos (lat2 * PI / 180) *
  sin ((lon2 - lon1) * PI / 180 / 2) * sin ((lon2 - lon1) * PI / 180 / 2).

(** The default value of the parameter [size]. *)
Definition default_size : R := 3176.862.

(** [calculateScore(distance, size = 3176.862)]: [size = None] is a call
    that leaves the second argument out. *)
Definition calculateScore (distance : R) (size : option R) : Z :=
  let size := default default_size size in
  let score := 50 * exp ((-10) * distance / size) in
  Math.round score.

(** The value the local constant [score] of [calculateScore] takes. *)
Definition rawScore (distance size : R) : R :=
  50 * exp ((-10) * distance / size).

(** ** [calculateScore] in double arithmetic *)

(** What [Math.round] returns: an integer, NaN or an infinity (the sign of a
    zero is left out). *)
Inductive Rounded : Type :=
  | Integral (n : Z)
  | NotANumber
  | Infinite (negative : bool).

Module Double.

(** [Math.exp] on doubles.  ECMAScript fixes its result for NaN, for the two
    zeros and for the infinities; elsewhere the result is a double that the
    engine chooses, here [mathExp x]. *)
Definition exp (mathExp : float -> float) (x : float) : float :=
  if PrimFloat.is_nan x then nan
  else if (x =? 0)%float then 1%float
  else if (x =? infinity)%float then infinity
  else if (x =? neg_infinity)%float then 0%float
  else mathExp x.

(** [Math.round] on doubles: the floor of the exact value plus one half,
    computed on the mantissa [m] and the exponent [e] of the double. *)
Definition round (x : float) : Rounded :=
  match Prim2SF x with
  | S754_nan => NotANumber
  | S754_infinity negative => Infinite negative
  | S754_zero _ => Integral 0
  | S754_finite negative m e =>
      let v := if negative then Z.neg m else Z.pos m in
      if (0 <=? e)%Z then Integral (v * 2 ^ e)
      else Integral ((2 * v + 2 ^ (- e)) / 2 ^ (- e + 1))
  end.

(** The rational number that a finite double stands for. *)
Definition value (x : float) : option Q :=
  match Prim2SF x with
  | S754_zero _ => Some 0%Q
  | S754_finite negative m e =>
      let v := if negative then Z.neg m else Z.pos m in
      if (0 <=? e)%Z then Some (inject_Z (v * 2 ^ e))
      else Some (Qmake v (Z.to_pos (2 ^ (- e))))
  | _ => None
  end.

(** The same as a real number (0 for NaN and the infinities). *)
Definition toR (x : float) : R :=
  match value x with
  | Some q => Q2R q
  | None => 0
  end.

End Double.

(** The default value of [size] as a double: the literal is rounded to the
    nearest one. *)
#[warnings="-inexact-float"]
Definition default_size_f : float := 3176.862%float.

(** [calculateScore] with every operation on doubles; [mathExp] is the
    engine's [Math.exp]. *)
Definition calculateScore_f (mathExp : float -> float) (distance : float)
    (size : option float) : Rounded :=
  let size := default default_size_f size in
  let score := (50 * Double.exp mathExp (-10 * distance / size))%float in
  Double.round score.

(** A distance at which [50 * e^(-10 * distance / 3176.862)] is below 49.5
    by less than [10^-16], as a double, and the double nearest to 0.99. *)
#[warnings="-inexact-float"]
Definition tie_distance : float := 3.19285300602263%float.

#[warnings="-inexact-float"]
Definition tie_exp : float := 0.99%float.

(** ** The state of the component [App] *)

(** [score] is declared [number | string]. *)
Inductive ScoreDisplay : Type :=
  | ScoreText (s : string)
  | ScoreNumber (n : Z).

(** One field per [useState] hook of [App] (lines 125-133). *)
Record AppState : Type := mkAppState {
  currentIndex : nat;
  score : ScoreDisplay;
  totalScore : Z;
  scoreAnimation : string;
  isDone : Z;
  userGuess : option (R * R);
  showCorrect : bool;
  correctLocation : option Location;
  showRules : bool
}.

(** The initial values given to the hooks. *)
Definition initialState : AppState :=
  {| currentIndex := 0;
     score := ScoreText "0";
     totalScore := 0;
     scoreAnimation := "";
     isDone := 0;
     userGuess := None;
     showCorrect := false;
     correctLocation := None;
     showRules := true |}.

(** The state setters.  A setter called with an updater function
    ([prev => ...]) takes that function; the others take the new value. *)
Definition setCurrentIndex (f : nat -> nat) (s : AppState) : AppState :=
  mkAppState (f (currentIndex s)) (score s) (totalScore s) (scoreAnimation s)
    (isDone s) (userGuess s) (showCorrect s) (correctLocation s) (showRules s).

Definition setScore (v : ScoreDisplay) (s : AppState) : AppState :=
  mkAppState (currentIndex s) v (totalScore s) (scoreAnimation s)
    (isDone s) (userGuess s) (showCorrect s) (correctLocation s) (showRules s).

Definition setTotalScore (f : Z -> Z) (s : AppState) : AppState :=
  mkAppState (currentIndex s) (score s) (f (totalScore s)) (scoreAnimation s)
    (isDone s) (userGuess s) (showCorrect s) (correctLocation s) (showRules s).

Definition setScoreAnimation (v : string) (s : AppState) : AppState :=
  mkAppState (currentIndex s) (score s) (totalScore s) v
    (isDone s) (userGuess s) (showCorrect s) (correctLocation s) (showRules s).

Definition setIsDone (v : Z) (s : AppState) : AppState :=
  mkAppState (currentIndex s) (score s) (totalScore s) (scoreAnimation s)
    v (userGuess s) (showCorrect s) (correctLocation s) (showRules s).

Definition setUserGuess (v : option (R * R)) (s : AppState) : AppState :=
  mkAppState (currentIndex s) (score s) (totalScore s) (scoreAnimation s)
    (isDone s) v (showCorrect s) (correctLocation s) (showRules s).

Definition setShowCorrect (v : bool) (s : AppState) : AppState :=
  mkAppState (currentIndex s) (score s) (totalScore s) (scoreAnimation s)
    (isDone s) (userGuess s) v (correctLocation s) (showRules s).

Definition setCorrectLocation (v : option Location) (s : AppState) : AppState :=
  mkAppState (currentIndex s) (score s) (totalScore s) (scoreAnimation s)
    (isDone s) (userGuess s) (showCorrect s) v (showRules s).

(** Conversion of an integral number to a string, as a template literal
    does it: decimal digits, with a leading minus sign when negative. *)
Definition numberToString (n : Z) : string :=
  NilZero.string_of_int (Z.to_int n).

(** The template literal of line 151. *)
Definition wonMessage (n : Z) : string :=
  ("You won with a score of " ++ numberToString n ++ "!")%string.

(** ** [handleGuess]

    The handler reads [isDone], [currentIndex] and [totalScore] from the
    render it was created in, the state [st] current at the click, and queues
    its updates; they are applied in the order of the calls.  [None] is the
    [TypeError] of [correct.lat] when [answers[currentIndex]] is undefined. *)
Definition handleGuess (answers : list Location) (st : AppState)
    (playerLat playerLon : R) : option AppState :=
  if (isDone st =? 1)%Z then Some st
  else
    match answers !! currentIndex st with
    | None => None
    | Some correct =>
        let distance :=
          haversineDistance (lat correct) (lon correct) playerLat playerLon in
        let roundScore := calculateScore distance None in
        let s := setUserGuess (Some (playerLat, playerLon)) st in
        let s := setCorrectLocation (Some correct) s in
        let s := setShowCorrect true s in
        let s := setScore (ScoreNumber roundScore) s in
        let s := setTotalScore (fun prev => (prev + roundScore)%Z) s in
        let s := setScoreAnimation "score-animation" s in
        let s :=
          if (length answers <=? currentIndex st + 1)%nat then
            let s := setIsDone 1 s in
            let s :=
              setScore (ScoreText (wonMessage (totalScore st + roundScore))) s in
            setScoreAnimation "done-animation" s
          else s in
        let s :=
          if (currentIndex st + 1 <? length answers)%nat then
            setCurrentIndex (fun prev => (prev + 1)%nat) s
          else s in
        Some s
    end.

(** A session: the clicks of the user, handled one after the other. *)
Fixpoint handleGuesses (answers : list Location) (st : AppState)
    (guesses : list (R * R)) : option AppState :=
  match guesses with
  | [] => Some st
  | (playerLat, playerLon) :: rest =>
      match handleGuess answers st playerLat playerLon with
      | Some st' => handleGuesses answers st' rest
      | None => None
      end
  end.

(** The states a session can be in: the initial one and those a guess
    leads to. *)
Inductive reachable (answers : list Location) : AppState -> Prop :=
  | reachable_init : reachable answers initialState
  | reachable_guess st st' playerLat playerLon :
      reachable answers st ->
      handleGuess answers st playerLat playerLon = Some st' ->
      reachable answers st'.

(** The score of round [i]: the score of the distance between the site of
    that round and the guess. *)
Definition roundScoreOf (site : Location) (guess : R * R) : Z :=
  calculateScore
    (haversineDistance (lat site) (lon site) (fst guess) (snd guess)) None.

Definition roundScores (answers : list Location) (guesses : list (R * R))
    : list Z :=
  zip_with roundScoreOf answers guesses.

Definition sumZ (l : list Z) : Z := foldr Z.add 0%Z l.

(** The invariant of the session: while the session is not done,
    [currentIndex] is an index of [answers]. *)
Definition index_valid (answers : list Location) (st : AppState) : Prop :=
  isDone st <> 1%Z -> (currentIndex st < length answers)%nat.

(** ** The specification's side *)

(** [n] is the rounding of [x]: an integer nearest to [x], the largest one
    when two integers are equally near. *)
Definition rounds_to (x : R) (n : Z) : Prop :=
  (forall m : Z, Rabs (x - IZR n) <= Rabs (x - IZR m)) /\
  (forall m : Z, Rabs (x - IZR m) = Rabs (x - IZR n) -> (m <= n)%Z).

(** The decay scale and the points before rounding,
    [50 * e^(-10 * distance / scale)]. *)
Definition spec_scale : R := 3176.862.

Definition spec_points (distance : R) : R :=
  50 * exp (- (10 * distance / spec_scale)).

(** [x] is [y] up to the tolerance [tol]. *)
Definition approx (tol x y : R) : Prop := Rabs (x - y) <= tol.

(** The scenario with target (46.8015, -71.2201), "Plains of Abraham", and
    guess (42.891411, -79.251964). *)
Definition scenario_a : R :=
  haversine_a 46.8015 (-71.2201) 42.891411 (-79.251964).

Definition scenario_distance : R :=
  haversineDistance 46.8015 (-71.2201) 42.891411 (-79.251964).

(** The site of the exact-match scenario. *)
Definition rideau_canal : Location :=
  mkLocation "Rideau Canal" 45.422164 (-75.691664).

(** ** Definitions for the further properties *)

(** A latitude of the valid range, in degrees. *)
Definition validLatitude (lat : R) : Prop := -90 <= lat <= 90.

(** A longitude of the valid range, in degrees. *)
Definition validLongitude (lon : R) : Prop := -180 <= lon <= 180.

(** The two points are not within some 400 km of being antipodal: [a], the
    squared sine of half their central angle, is at most 0.999. *)
Definition awayFromAntipode (lat1 lon1 lat2 lon2 : R) : Prop :=
  haversine_a lat1 lon1 lat2 lon2 <= 0.999.

(** A site with coordinates of the valid ranges. *)
Definition validSite (site : Location) : Prop :=
  validLatitude (lat site) /\ validLongitude (lon site).

(** A guess with coordinates of the valid ranges, away from the antipode of
    every site of [answers]. *)
Definition validGuess (answers : list Location) (guess : R * R) : Prop :=
  validLatitude (fst guess) /\ validLongitude (snd guess) /\
  Forall (fun site =>
            awayFromAntipode (lat site) (lon site) (fst guess) (snd guess))
         answers.

(** The cosine of the central angle between two points, by the spherical
    law of cosines. *)
Definition cosCentralAngle (lat1 lon1 lat2 lon2 : R) : R :=
  sin (lat1 * PI / 180) * sin (lat2 * PI / 180) +
  cos (lat1 * PI / 180) * cos (lat2 * PI / 180) *
  cos ((lon2 - lon1) * PI / 180).

(** The index the loop of [shuffleArray] draws at counter [i] from the
    [k]-th result of [Math.random]. *)
Definition drawnIndex (random : nat -> Q) (i k : nat) : Z :=
  Math.floor (random k * inject_Z (Z.of_nat (i + 1)))%Q.

(** A result of [Math.random] that draws the index [j] at counter [i]. *)
Definition drawFor (i j : nat) : Q := Z.of_nat j # Pos.of_succ_nat i.

(** ** The rest of the component [App] *)

Definition setShowRules (v : bool) (s : AppState) : AppState :=
  mkAppState (currentIndex s) (score s) (totalScore s) (scoreAnimation s)
    (isDone s) (userGuess s) (showCorrect s) (correctLocation s) v.

(** [onClose] as [App] gives it to [Rules] (line 162):
    [() => setShowRules(false)]. *)
Definition closeRules (s : AppState) : AppState := setShowRules false s.

(** A Leaflet [LatLng], the [latlng] of a click event. *)
Record LatLng : Type := mkLatLng {
  latlng_lat : R;
  latlng_lng : R
}.

(** The click handler of [MapEvents] (lines 52-54):
    [(e) => onMapClick(e.latlng.lat, e.latlng.lng)]. *)
Definition MapEvents_click {A : Type} (onMapClick : R -> R -> A)
    (e_latlng : LatLng) : A :=
  onMapClick (latlng_lat e_latlng) (latlng_lng e_latlng).

(** The effect of [ZoomToPoints] (lines 62-70): the two corners of the
    bounds given to [map.fitBounds], [None] when the effect does not call
    it. *)
Definition ZoomToPoints (userGuess : option (R * R))
    (correctLocation : option Location) : option (LatLng * LatLng) :=
  match userGuess, correctLocation with
  | Some guess, Some correct =>
      Some (mkLatLng (fst guess) (snd guess),
            mkLatLng (lat correct) (lon correct))
  | _, _ => None
  end.

(** What [App] returns (lines 160-216), as far as it depends on the state:
    the elements shown and their contents. *)
Record View : Type := mkView {
  view_rules : bool;
  view_promptHidden : bool;
  view_prompt : string;
  view_scoreClass : string;
  view_score : ScoreDisplay;
  view_total : string;
  view_zoom : option (LatLng * LatLng);
  view_polyline : option ((R * R) * (R * R));
  view_guessMarker : option (R * R);
  view_correctMarker : option (R * R)
}.

(** The render of [App]; [None] is the [TypeError] of
    [answers[currentIndex].name] on an undefined entry. *)
Definition render (answers : list Location) (st : AppState) : option View :=
  match answers !! currentIndex st with
  | None => None
  | Some current =>
      Some {|
        view_rules := showRules st;
        view_promptHidden := (isDone st =? 1)%Z;
        view_prompt := name current;
        view_scoreClass := ("score " ++ scoreAnimation st)%string;
        view_score := score st;
        view_total := ("Total Score: " ++ numberToString (totalScore st))%string;
        view_zoom := ZoomToPoints (userGuess st) (correctLocation st);
        view_polyline :=
          match userGuess st, correctLocation st, showCorrect st with
          | Some guess, Some correct, true =>
              Some ((fst guess, snd guess), (lat correct, lon correct))
          | _, _, _ => None
          end;
        view_guessMarker :=
          match userGuess st with
          | Some guess => Some (fst guess, snd guess)
          | None => None
          end;
        view_correctMarker :=
          match showCorrect st, correctLocation st with
          | true, Some correct => Some (lat correct, lon correct)
          | _, _ => None
          end
      |}
  end.

(** The site a round is played against: the [correctLocation] the state
    holds after the guess of round [k]. *)
Definition roundTarget (answers : list Location) (guesses : list (R * R))
    (k : nat) : option Location :=
  match handleGuesses answers initialState (take (S k) guesses) with
  | Some st => correctLocation st
  | None => None
  end.

(** The rounds played: all of them once the session is done, else as many
    as [currentIndex] counts. *)
Definition roundsPlayed (answers : list Location) (st : AppState) : nat :=
  if (isDone st =? 1)%Z then length answers else currentIndex st.

(** The guess and the target are shown together or not at all. *)
Definition overlay_consistent (answers : list Location) (st : AppState)
    : Prop :=
  (userGuess st = None /\ correctLocation st = None /\ showCorrect st = false) \/
  (exists guess correct,
      userGuess st = Some guess /\ correctLocation st = Some correct /\
      showCorrect st = true /\ correct ∈ answers).

(** The total is within 50 points for each round played, and the index is
    one of [answers]. *)
Definition total_bounded (answers : list Location) (st : AppState) : Prop :=
  (currentIndex st < length answers)%nat /\
  (0 <= totalScore st <= 50 * Z.of_nat (roundsPlayed answers st))%Z.

(** * Rounding and the score *)

Lemma round_bound x :
  IZR (Math.round x) - / 2 <= x < IZR (Math.round x) + / 2.
Proof.
  unfold Math.round. pose proof (Zfloor_bound (x + / 2)). lra.
Qed.

Lemma round_eq x n : IZR n - / 2 <= x < IZR n + / 2 -> Math.round x = n.
Proof.
  intros H. unfold Math.round. apply Zfloor_eq. lra.
Qed.

Lemma round_le x y : x <= y -> (Math.round x <= Math.round y)%Z.
Proof.
  intros H. unfold Math.round. apply Zfloor_le. lra.
Qed.

Lemma round_IZR n : Math.round (IZR n) = n.
Proof.
  apply round_eq. lra.
Qed.

Lemma round_nearest x m :
  Rabs (x - IZR (Math.round x)) <= Rabs (x - IZR m).
Proof.
  pose proof (round_bound x) as [Hlo Hhi].
  set (n := Math.round x) in *.
  destruct (Z.lt_trichotomy m n) as [Hlt | [-> | Hgt]].
  - assert (IZR m <= IZR n - 1).
    { rewrite <- minus_IZR. apply IZR_le. lia. }
    unfold Rabs. repeat destruct Rcase_abs; lra.
  - lra.
  - assert (IZR n + 1 <= IZR m).
    { rewrite <- plus_IZR. apply IZR_le. lia. }
    unfold Rabs. repeat destruct Rcase_abs; lra.
Qed.

Lemma round_ties_up x m :
  Rabs (x - IZR m) = Rabs (x - IZR (Math.round x)) -> (m <= Math.round x)%Z.
Proof.
  intros Heq. pose proof (round_bound x) as [Hlo Hhi].
  set (n := Math.round x) in *.
  destruct (Z.le_gt_cases m n) as [Hle | Hgt]; [assumption | exfalso].
  assert (IZR n + 1 <= IZR m).
  { rewrite <- plus_IZR. apply IZR_le. lia. }
  revert Heq. unfold Rabs. repeat destruct Rcase_abs; lra.
Qed.

Lemma round_rounds_to x : rounds_to x (Math.round x).
Proof.
  split; [apply round_nearest | apply round_ties_up].
Qed.

Lemma calculateScore_raw distance :
  calculateScore distance None = Math.round (rawScore distance default_size).
Proof. reflexivity. Qed.

Lemma default_size_pos : 0 < default_size.
Proof. unfold default_size. lra. Qed.

Lemma spec_points_raw distance :
  spec_points distance = rawScore distance default_size.
Proof.
  unfold spec_points, rawScore, spec_scale, default_size.
  apply f_equal, f_equal. lra.
Qed.

Lemma exp_monotone x y : x <= y -> exp x <= exp y.
Proof.
  intros [Hlt | ->]; [left; now apply exp_increasing | right; reflexivity].
Qed.

Lemma rawScore_antitone d1 d2 :
  d1 <= d2 -> rawScore d2 default_size <= rawScore d1 default_size.
Proof.
  intros H. unfold rawScore.
  apply Rmult_le_compat_l; [lra |]. apply exp_monotone.
  pose proof default_size_pos as Hs.
  unfold Rdiv. apply Rmult_le_compat_r; [left; now apply Rinv_0_lt_compat | lra].
Qed.

Lemma rawScore_0 : rawScore 0 default_size = 50.
Proof.
  unfold rawScore. replace ((-10) * 0 / default_size) with 0.
  - rewrite exp_0. lra.
  - unfold Rdiv. ring.
Qed.

Lemma calculateScore_0 : calculateScore 0 None = 50%Z.
Proof.
  rewrite calculateScore_raw, rawScore_0. apply (round_IZR 50).
Qed.

Lemma calculateScore_antitone d1 d2 :
  d1 <= d2 -> (calculateScore d2 None <= calculateScore d1 None)%Z.
Proof.
  intros H. rewrite !calculateScore_raw. now apply round_le, rawScore_antitone.
Qed.

Lemma calculateScore_range d :
  0 <= d -> (0 <= calculateScore d None <= 50)%Z.
Proof.
  intros H. split.
  - rewrite calculateScore_raw, <- (round_IZR 0).
    apply round_le. unfold rawScore.
    pose proof (exp_pos ((-10) * d / default_size)). lra.
  - rewrite <- calculateScore_0. now apply calculateScore_antitone.
Qed.

(** Below [-size / 1000] the score exceeds 50. *)
Lemma calculateScore_above_50 d :
  d <= - (default_size / 1000) -> (50 < calculateScore d None)%Z.
Proof.
  intros H. pose proof default_size_pos as Hs.
  assert (Ht : / 100 <= (-10) * d / default_size).
  { apply Rmult_le_reg_r with default_size; [assumption |].
    unfold Rdiv. rewrite Rmult_assoc, Rinv_l by lra. lra. }
  pose proof (exp_ineq1_le ((-10) * d / default_size)) as Hexp.
  assert (Hraw : IZR 51 - / 2 <= rawScore d default_size)
    by (unfold rawScore; lra).
  rewrite calculateScore_raw.
  assert (Hle : (Math.round (IZR 51 - / 2) <= Math.round (rawScore d default_size))%Z)
    by now apply round_le.
  rewrite (round_eq (IZR 51 - / 2) 51) in Hle by lra. lia.
Qed.

(** One kilometre below zero the score is still 50. *)
Lemma calculateScore_minus_1 : calculateScore (-1) None = 50%Z.
Proof.
  rewrite calculateScore_raw. apply round_eq. unfold rawScore.
  set (t := (-10) * -1 / default_size).
  assert (Ht : 0 < t < / 200).
  { unfold t, default_size. lra. }
  pose proof (exp_ineq1_le t) as Hlo.
  pose proof (exp_ineq1_le (- t)) as Hinv.
  rewrite exp_Ropp in Hinv.
  pose proof (exp_pos t) as Hpos.
  assert (Hup : exp t * (1 - t) <= 1).
  { apply Rmult_le_reg_l with (/ exp t); [now apply Rinv_0_lt_compat |].
    rewrite <- Rmult_assoc, Rinv_l by lra. lra. }
  split; [lra | nra].
Qed.

(** * The distance *)

Lemma atan2_0_1 : Math.atan2 0 1 = 0.
Proof.
  unfold Math.atan2. destruct (Rlt_dec 0 1) as [_ | H]; [| lra].
  replace (0 / 1) with 0 by lra. apply atan_0.
Qed.

Lemma haversineDistance_same la lo : haversineDistance la lo la lo = 0.
Proof.
  unfold haversineDistance.
  replace ((la - la) * PI / 180 / 2) with 0 by (unfold Rdiv; ring).
  replace ((lo - lo) * PI / 180 / 2) with 0 by (unfold Rdiv; ring).
  rewrite sin_0.
  replace (0 * 0 + cos (la * PI / 180) * cos (la * PI / 180) * 0 * 0)
    with 0 by ring.
  rewrite Rminus_0_r, sqrt_0, sqrt_1, atan2_0_1. lra.
Qed.

Lemma haversineDistance_sym lat1 lon1 lat2 lon2 :
  haversineDistance lat1 lon1 lat2 lon2 = haversineDistance lat2 lon2 lat1 lon1.
Proof.
  unfold haversineDistance.
  replace ((lat1 - lat2) * PI / 180 / 2) with (- ((lat2 - lat1) * PI / 180 / 2))
    by (unfold Rdiv; ring).
  replace ((lon1 - lon2) * PI / 180 / 2) with (- ((lon2 - lon1) * PI / 180 / 2))
    by (unfold Rdiv; ring).
  rewrite !sin_neg.
  set (s1 := sin ((lat2 - lat1) * PI / 180 / 2)).
  set (s2 := sin ((lon2 - lon1) * PI / 180 / 2)).
  set (c1 := cos (lat1 * PI / 180)).
  set (c2 := cos (lat2 * PI / 180)).
  replace (- s1 * - s1 + c2 * c1 * - s2 * - s2)
    with (s1 * s1 + c1 * c2 * s2 * s2) by ring.
  reflexivity.
Qed.

(** * Numerical enclosures *)

Lemma PI_bounds : 3.14159 < PI < 3.1416.
Proof.
  pose proof (PI_2_3_7_ineq 3) as [Hlo Hhi].
  unfold tg_alt, PI_2_3_7_tg, Ratan_seq in Hlo, Hhi.
  cbn [sum_f_R0 Nat.mul Nat.add pow] in Hlo, Hhi.
  cbn [INR] in Hlo, Hhi.
  split; lra.
Qed.

Lemma INR_fact n v : Z.of_nat (fact n) = v -> INR (fact n) = IZR v.
Proof. intros <-. apply INR_IZR_INZ. Qed.

Lemma sin_lb_poly u :
  sin_lb u = u - u ^ 3 / 6 + u ^ 5 / 120 - u ^ 7 / 5040.
Proof.
  unfold sin_lb, sin_approx, sin_term. cbn [sum_f_R0].
  rewrite (INR_fact (2 * 0 + 1) 1), (INR_fact (2 * 1 + 1) 6),
    (INR_fact (2 * 2 + 1) 120), (INR_fact (2 * 3 + 1) 5040)
    by (vm_compute; reflexivity).
  cbn [Nat.mul Nat.add]. field.
Qed.

Lemma sin_ub_poly u :
  sin_ub u = u - u ^ 3 / 6 + u ^ 5 / 120 - u ^ 7 / 5040 + u ^ 9 / 362880.
Proof.
  unfold sin_ub, sin_approx, sin_term. cbn [sum_f_R0].
  rewrite (INR_fact (2 * 0 + 1) 1), (INR_fact (2 * 1 + 1) 6),
    (INR_fact (2 * 2 + 1) 120), (INR_fact (2 * 3 + 1) 5040),
    (INR_fact (2 * 4 + 1) 362880)
    by (vm_compute; reflexivity).
  cbn [Nat.mul Nat.add]. field.
Qed.

Lemma cos_lb_poly u :
  cos_lb u = 1 - u ^ 2 / 2 + u ^ 4 / 24 - u ^ 6 / 720.
Proof.
  unfold cos_lb, cos_approx, cos_term. cbn [sum_f_R0].
  rewrite (INR_fact (2 * 0) 1), (INR_fact (2 * 1) 2),
    (INR_fact (2 * 2) 24), (INR_fact (2 * 3) 720)
    by (vm_compute; reflexivity).
  cbn [Nat.mul Nat.add]. field.
Qed.

Lemma cos_ub_poly u :
  cos_ub u = 1 - u ^ 2 / 2 + u ^ 4 / 24 - u ^ 6 / 720 + u ^ 8 / 40320.
Proof.
  unfold cos_ub, cos_approx, cos_term. cbn [sum_f_R0].
  rewrite (INR_fact (2 * 0) 1), (INR_fact (2 * 1) 2),
    (INR_fact (2 * 2) 24), (INR_fact (2 * 3) 720), (INR_fact (2 * 4) 40320)
    by (vm_compute; reflexivity).
  cbn [Nat.mul Nat.add]. field.
Qed.

(** Sine between two points of [[0, 3/2]]. *)
Lemma sin_enclosure lo u hi :
  0 <= lo -> lo <= u -> u <= hi -> hi <= 3 / 2 ->
  sin_lb lo <= sin u <= sin_ub hi.
Proof.
  intros H0 Hlo Hhi H1. pose proof PI_bounds as [Hpi _].
  split.
  - apply Rle_trans with (sin lo).
    + apply SIN; lra.
    + apply sin_incr_1; lra.
  - apply Rle_trans with (sin hi).
    + apply sin_incr_1; lra.
    + apply SIN; lra.
Qed.

(** Cosine between two points of [[0, 3/2]]. *)
Lemma cos_enclosure lo u hi :
  0 <= lo -> lo <= u -> u <= hi -> hi <= 3 / 2 ->
  cos_lb hi <= cos u <= cos_ub lo.
Proof.
  intros H0 Hlo Hhi H1. pose proof PI_bounds as [Hpi _].
  split.
  - apply Rle_trans with (cos hi).
    + apply COS; lra.
    + apply cos_decr_1; lra.
  - apply Rle_trans with (cos lo).
    + apply cos_decr_1; lra.
    + apply COS; lra.
Qed.

(** For [0 < a < 1] the angle [atan2 (sqrt a) (sqrt (1 - a))] is the one of
    the first quadrant whose squared sine is [a]. *)
Lemma atan2_sqrt a :
  0 < a < 1 ->
  0 < Math.atan2 (sqrt a) (sqrt (1 - a)) < PI / 2 /\
  sin (Math.atan2 (sqrt a) (sqrt (1 - a))) *
  sin (Math.atan2 (sqrt a) (sqrt (1 - a))) = a.
Proof.
  intros [Ha0 Ha1].
  assert (Hsa : 0 < sqrt a) by (apply sqrt_lt_R0; lra).
  assert (Hsb : 0 < sqrt (1 - a)) by (apply sqrt_lt_R0; lra).
  assert (Hsa2 : sqrt a * sqrt a = a) by (apply sqrt_sqrt; lra).
  assert (Hsb2 : sqrt (1 - a) * sqrt (1 - a) = 1 - a) by (apply sqrt_sqrt; lra).
  unfold Math.atan2. destruct (Rlt_dec 0 (sqrt (1 - a))) as [_ | Hn]; [| contradiction].
  set (sa := sqrt a) in *. set (sb := sqrt (1 - a)) in *.
  assert (Hx : 0 < sa / sb) by (apply Rdiv_lt_0_compat; assumption).
  assert (Hsin : sin (atan (sa / sb)) = sa).
  { rewrite sin_atan.
    assert (Hsq : 1 + (sa / sb)² = / sb * / sb).
    { unfold Rsqr. apply Rmult_eq_reg_r with (sb * sb); [| nra].
      field_simplify; [| lra | lra]. nra. }
    rewrite Hsq, sqrt_square by (left; now apply Rinv_0_lt_compat).
    field. lra. }
  split.
  - pose proof (atan_bound (sa / sb)) as [_ Hup].
    pose proof (atan_increasing 0 (sa / sb) Hx) as Hpos.
    rewrite atan_0 in Hpos. lra.
  - rewrite Hsin. exact Hsa2.
Qed.

(** An angle of the first quadrant is enclosed by two points as soon as its
    squared sine is enclosed by the squares of their sine bounds. *)
Lemma angle_enclosure θ a lo hi :
  0 < θ < PI / 2 -> sin θ * sin θ = a ->
  0 <= lo -> lo <= 3 / 2 -> 0 <= hi -> hi <= 3 / 2 ->
  sin_ub lo * sin_ub lo < a ->
  0 <= sin_lb hi -> a < sin_lb hi * sin_lb hi ->
  lo < θ < hi.
Proof.
  intros [Hθ0 Hθ1] Hsin Hlo0 Hlo1 Hhi0 Hhi1 Hbelow Hpos Habove.
  pose proof PI_bounds as [Hpi _].
  assert (Hs : 0 < sin θ) by (apply sin_gt_0; lra).
  split; apply Rnot_le_lt; intros Hle.
  - assert (sin θ <= sin_ub lo).
    { apply Rle_trans with (sin lo); [apply sin_incr_1; lra | apply SIN; lra]. }
    nra.
  - assert (sin_lb hi <= sin θ).
    { apply Rle_trans with (sin hi); [apply SIN; lra | apply sin_incr_1; lra]. }
    nra.
Qed.

(** * The exponential at the scenario's distance *)

Lemma exp_double_upper x b b' :
  exp x <= b -> b * b <= b' -> exp (2 * x) <= b'.
Proof.
  intros Hb Hbb. replace (2 * x) with (x + x) by lra.
  rewrite exp_plus. pose proof (exp_pos x). nra.
Qed.

Lemma exp_double_lower x b b' :
  b <= exp x -> 0 <= b -> b' <= b * b -> b' <= exp (2 * x).
Proof.
  intros Hb H0 Hbb. replace (2 * x) with (x + x) by lra.
  rewrite exp_plus. nra.
Qed.

Lemma exp_opp_upper s b : 0 <= s -> 1 <= b * (1 + s) -> exp (- s) <= b.
Proof.
  intros Hs Hb. pose proof (exp_ineq1_le s) as H. pose proof (exp_pos s) as Hp.
  rewrite exp_Ropp.
  apply Rmult_le_reg_r with (exp s); [assumption |].
  rewrite Rinv_l by lra. nra.
Qed.

Lemma exp_opp_lower s b : b <= 1 - s -> b <= exp (- s).
Proof.
  intros Hb. pose proof (exp_ineq1_le (- s)). lra.
Qed.

(** [exp (-10 * 767 / 3176.862) < 0.09], by ten squarings from
    [exp (- s) <= / (1 + s)]. *)
Lemma exp_767_upper : exp ((-10) * 767 / default_size) < 0.09.
Proof.
  unfold default_size.
  set (s := 10 * 767 / 3176.862 / 1024).
  assert (H0 : exp (- s) <= 0.997647799671)
    by (apply exp_opp_upper; unfold s; lra).
  pose proof (exp_double_upper _ _ 0.995301132189 H0 ltac:(lra)) as H1.
  pose proof (exp_double_upper _ _ 0.990624343737 H1 ltac:(lra)) as H2.
  pose proof (exp_double_upper _ _ 0.981336590405 H2 ltac:(lra)) as H3.
  pose proof (exp_double_upper _ _ 0.963021503668 H3 ltac:(lra)) as H4.
  pose proof (exp_double_upper _ _ 0.927410416527 H4 ltac:(lra)) as H5.
  pose proof (exp_double_upper _ _ 0.860090080683 H5 ltac:(lra)) as H6.
  pose proof (exp_double_upper _ _ 0.739754946890 H6 ltac:(lra)) as H7.
  pose proof (exp_double_upper _ _ 0.547237381449 H7 ltac:(lra)) as H8.
  pose proof (exp_double_upper _ _ 0.299468751656 H8 ltac:(lra)) as H9.
  pose proof (exp_double_upper _ _ 0.089681533219 H9 ltac:(lra)) as H10.
  replace ((-10) * 767 / 3176.862)
    with (2 * (2 * (2 * (2 * (2 * (2 * (2 * (2 * (2 * (2 * - s))))))))))
    by (unfold s; lra).
  lra.
Qed.

(** [0.08 <= exp (-10 * 768 / 3176.862)], by five squarings from
    [1 - s <= exp (- s)]. *)
Lemma exp_768_lower : 0.08 <= exp ((-10) * 768 / default_size).
Proof.
  unfold default_size.
  set (s := 10 * 768 / 3176.862 / 32).
  assert (H0 : 0.924453753420 <= exp (- s))
    by (apply exp_opp_lower; unfold s; lra).
  pose proof (exp_double_lower _ _ 0.854614742212 H0 ltac:(lra) ltac:(lra)) as H1.
  pose proof (exp_double_lower _ _ 0.730366357606 H1 ltac:(lra) ltac:(lra)) as H2.
  pose proof (exp_double_lower _ _ 0.533435016322 H2 ltac:(lra) ltac:(lra)) as H3.
  pose proof (exp_double_lower _ _ 0.284552916638 H3 ltac:(lra) ltac:(lra)) as H4.
  pose proof (exp_double_lower _ _ 0.080970362367 H4 ltac:(lra) ltac:(lra)) as H5.
  replace ((-10) * 768 / 3176.862)
    with (2 * (2 * (2 * (2 * (2 * - s))))) by (unfold s; lra).
  lra.
Qed.

(** * The scenario of the specification *)

Lemma haversineDistance_a lat1 lon1 lat2 lon2 :
  haversineDistance lat1 lon1 lat2 lon2 =
  6371e3 *
    (2 * Math.atan2 (sqrt (haversine_a lat1 lon1 lat2 lon2))
           (sqrt (1 - haversine_a lat1 lon1 lat2 lon2))) / 1000.
Proof. reflexivity. Qed.

Lemma scenario_sin_lat :
  0.0341153 <= sin (3.910089 / 360 * PI) <= 0.0341155.
Proof.
  pose proof PI_bounds as [Hlo Hhi].
  destruct (sin_enclosure (3.910089 / 360 * 3.14159) (3.910089 / 360 * PI)
              (3.910089 / 360 * 3.1416)) as [H1 H2]; try lra.
  rewrite sin_lb_poly in H1. rewrite sin_ub_poly in H2. lra.
Qed.

Lemma scenario_sin_lon :
  0.070033 <= sin (8.031864 / 360 * PI) <= 0.0700341.
Proof.
  pose proof PI_bounds as [Hlo Hhi].
  destruct (sin_enclosure (8.031864 / 360 * 3.14159) (8.031864 / 360 * PI)
              (8.031864 / 360 * 3.1416)) as [H1 H2]; try lra.
  rewrite sin_lb_poly in H1. rewrite sin_ub_poly in H2. lra.
Qed.

Lemma scenario_cos_target :
  0.684521 <= cos (46.8015 * PI / 180) <= 0.684529.
Proof.
  pose proof PI_bounds as [Hlo Hhi].
  destruct (cos_enclosure (46.8015 * 3.14159 / 180) (46.8015 * PI / 180)
              (46.8015 * 3.1416 / 180)) as [H1 H2]; try lra.
  rewrite cos_lb_poly in H1. rewrite cos_ub_poly in H2. lra.
Qed.

Lemma scenario_cos_guess :
  0.732641 <= cos (42.891411 * PI / 180) <= 0.732646.
Proof.
  pose proof PI_bounds as [Hlo Hhi].
  destruct (cos_enclosure (42.891411 * 3.14159 / 180) (42.891411 * PI / 180)
              (42.891411 * 3.1416 / 180)) as [H1 H2]; try lra.
  rewrite cos_lb_poly in H1. rewrite cos_ub_poly in H2. lra.
Qed.

Lemma scenario_a_bounds : 0.003623 < scenario_a < 0.003624.
Proof.
  unfold scenario_a, haversine_a.
  replace ((42.891411 - 46.8015) * PI / 180 / 2)
    with (- (3.910089 / 360 * PI)) by lra.
  replace ((-79.251964 - -71.2201) * PI / 180 / 2)
    with (- (8.031864 / 360 * PI)) by lra.
  rewrite !sin_neg.
  pose proof scenario_sin_lat as [Hs1 Hs1'].
  pose proof scenario_sin_lon as [Hs2 Hs2'].
  pose proof scenario_cos_target as [Hc1 Hc1'].
  pose proof scenario_cos_guess as [Hc2 Hc2'].
  set (s1 := sin (3.910089 / 360 * PI)) in *.
  set (s2 := sin (8.031864 / 360 * PI)) in *.
  set (c1 := cos (46.8015 * PI / 180)) in *.
  set (c2 := cos (42.891411 * PI / 180)) in *.
  assert (Hp : 0.501508 <= c1 * c2 <= 0.501518) by nra.
  assert (Hq : 0.0049046 <= s2 * s2 <= 0.0049048) by nra.
  assert (Hr : 0.0011638 <= s1 * s1 <= 0.0011639) by nra.
  replace (- s1 * - s1 + c1 * c2 * - s2 * - s2)
    with (s1 * s1 + (c1 * c2) * (s2 * s2)) by ring.
  set (p := c1 * c2) in *. set (q := s2 * s2) in *.
  split; nra.
Qed.

Lemma scenario_distance_bounds : 767.4 < scenario_distance < 767.6.
Proof.
  unfold scenario_distance. rewrite haversineDistance_a.
  fold scenario_a. pose proof scenario_a_bounds as [Ha Ha'].
  destruct (atan2_sqrt scenario_a) as [Hθ Hsin]; [lra |].
  set (θ := Math.atan2 (sqrt scenario_a) (sqrt (1 - scenario_a))) in *.
  destruct (angle_enclosure θ scenario_a (767.4 / 12742) (767.6 / 12742))
    as [Hlo Hhi]; try assumption; try lra.
  - rewrite sin_ub_poly. lra.
  - rewrite sin_lb_poly. lra.
  - rewrite sin_lb_poly. lra.
Qed.

(** Between 767 km and 768 km the score is 4. *)
Lemma calculateScore_767_768 d :
  767 <= d <= 768 -> calculateScore d None = 4%Z.
Proof.
  intros [Hlo Hhi]. rewrite calculateScore_raw. apply round_eq.
  pose proof (rawScore_antitone 767 d Hlo) as Hup.
  pose proof (rawScore_antitone d 768 Hhi) as Hdown.
  pose proof exp_767_upper. pose proof exp_768_lower.
  unfold rawScore in *. lra.
Qed.

Lemma scenario_score : calculateScore scenario_distance None = 4%Z.
Proof.
  apply calculateScore_767_768. pose proof scenario_distance_bounds. lra.
Qed.

(** * The session *)

Section Session.

Variable answers : list Location.

Lemma handleGuess_done st playerLat playerLon :
  isDone st = 1%Z -> handleGuess answers st playerLat playerLon = Some st.
Proof.
  intros Hdone. unfold handleGuess. now rewrite Hdone.
Qed.

(** What one accepted guess does to the fields the session depends on. *)
Lemma handleGuess_active st playerLat playerLon correct :
  isDone st <> 1%Z ->
  answers !! currentIndex st = Some correct ->
  exists st',
    handleGuess answers st playerLat playerLon = Some st' /\
    totalScore st' =
      (totalScore st + roundScoreOf correct (playerLat, playerLon))%Z /\
    ((currentIndex st + 1 < length answers)%nat ->
       currentIndex st' = (currentIndex st + 1)%nat /\
       isDone st' = isDone st) /\
    ((length answers <= currentIndex st + 1)%nat ->
       currentIndex st' = currentIndex st /\
       isDone st' = 1%Z /\
       score st' = ScoreText (wonMessage (totalScore st'))).
Proof.
  intros Hrun Hcorrect. unfold handleGuess.
  destruct (Z.eqb_spec (isDone st) 1) as [Heq | _]; [contradiction |].
  rewrite Hcorrect.
  destruct (Nat.leb_spec (length answers) (currentIndex st + 1)) as [Hlast | Hmore];
    destruct (Nat.ltb_spec (currentIndex st + 1) (length answers)) as [Hlt | Hge];
    try lia; eexists; (split; [reflexivity |]); cbn;
    unfold roundScoreOf; cbn; repeat split; intros; try lia; reflexivity.
Qed.

(** From a running state whose index is valid, as many guesses as there
    are rounds left end the session with every round score added. *)
Lemma handleGuesses_to_the_end guesses :
  forall st,
    isDone st = 0%Z ->
    (currentIndex st < length answers)%nat ->
    (currentIndex st + length guesses = length answers)%nat ->
    exists st',
      handleGuesses answers st guesses = Some st' /\
      isDone st' = 1%Z /\
      totalScore st' =
        (totalScore st +
         sumZ (roundScores (drop (currentIndex st) answers) guesses))%Z /\
      score st' = ScoreText (wonMessage (totalScore st')).
Proof.
  induction guesses as [| [playerLat playerLon] rest IH]; intros st Hrun Hidx Hlen.
  - cbn in Hlen. lia.
  - destruct (lookup_lt_is_Some_2 answers (currentIndex st) Hidx)
      as [correct Hcorrect].
    destruct (handleGuess_active st playerLat playerLon correct)
      as (st1 & Hstep & Htot & Hnext & Hlast); [lia | assumption |].
    cbn [handleGuesses]. rewrite Hstep.
    rewrite (drop_S _ _ _ Hcorrect). unfold roundScores. cbn [zip_with sumZ foldr].
    cbn [length] in Hlen.
    destruct rest as [| g rest'].
    + destruct Hlast as (_ & Hdone & Hscore); [cbn in Hlen; lia |].
      exists st1. cbn. repeat split; try assumption.
      rewrite Htot. destruct (drop _ answers); cbn; lia.
    + destruct Hnext as (Hci & Hd); [cbn in Hlen; lia |].
      destruct (IH st1) as (st' & Hrest & Hdone & Htot' & Hscore).
      * lia.
      * cbn in Hlen. lia.
      * cbn in Hlen |- *. lia.
      * exists st'. repeat split; try assumption.
        rewrite Htot', Htot, Hci.
        replace (currentIndex st + 1)%nat with (S (currentIndex st)) by lia.
        unfold roundScores, sumZ. lia.
Qed.

(** As long as rounds are left after them, guesses keep the session
    running. *)
Lemma handleGuesses_running guesses :
  forall st,
    isDone st = 0%Z ->
    (currentIndex st + length guesses < length answers)%nat ->
    exists st',
      handleGuesses answers st guesses = Some st' /\
      isDone st' = 0%Z /\
      currentIndex st' = (currentIndex st + length guesses)%nat.
Proof.
  induction guesses as [| [playerLat playerLon] rest IH]; intros st Hrun Hlen.
  - exists st. cbn. repeat split; try assumption. lia.
  - cbn [length] in Hlen.
    destruct (lookup_lt_is_Some_2 answers (currentIndex st)) as [correct Hcorrect];
      [lia |].
    destruct (handleGuess_active st playerLat playerLon correct)
      as (st1 & Hstep & _ & Hnext & _); [lia | assumption |].
    destruct Hnext as (Hci & Hd); [lia |].
    destruct (IH st1) as (st' & Hrest & Hdone & Hidx); [lia | lia |].
    exists st'. cbn [handleGuesses]. rewrite Hstep.
    repeat split; try assumption. cbn [length]. lia.
Qed.

Lemma handleGuess_preserves_index_valid st playerLat playerLon :
  index_valid answers st ->
  exists st',
    handleGuess answers st playerLat playerLon = Some st' /\ index_valid answers st'.
Proof.
  intros Hinv.
  destruct (Z.eq_dec (isDone st) 1%Z) as [Hdone | Hrun].
  - exists st. split; [now apply handleGuess_done | assumption].
  - specialize (Hinv Hrun).
    destruct (lookup_lt_is_Some_2 answers (currentIndex st) Hinv)
      as [correct Hcorrect].
    destruct (handleGuess_active st playerLat playerLon correct Hrun Hcorrect)
      as (st' & Hstep & _ & Hnext & Hlast).
    exists st'. split; [assumption |]. intros Hrun'.
    destruct (Nat.lt_ge_cases (currentIndex st + 1) (length answers)) as [Hlt | Hge].
    + destruct (Hnext Hlt) as [Hci _]. lia.
    + destruct (Hlast Hge) as (_ & Hdone & _). contradiction.
Qed.

Lemma reachable_index_valid st :
  answers <> [] -> reachable answers st -> index_valid answers st.
Proof.
  intros Hne Hreach. induction Hreach as [| st st' la lo _ IH Hstep].
  - intros _. cbn. destruct answers; [contradiction | cbn; lia].
  - destruct (handleGuess_preserves_index_valid st la lo IH) as (st2 & Hstep2 & Hinv).
    rewrite Hstep in Hstep2. injection Hstep2 as <-. exact Hinv.
Qed.

End Session.

(** A first guess placed on the target, for the catalog in its written
    order: 50 points and the second round. *)
Example handleGuess_first_round_on_target :
  handleGuess catalog initialState 45.8922 (-59.9855) =
  Some {| currentIndex := 1;
          score := ScoreNumber 50;
          totalScore := 50;
          scoreAnimation := "score-animation";
          isDone := 0;
          userGuess := Some (45.8922, -59.9855);
          showCorrect := true;
          correctLocation := Some (mkLocation "Fort Louisbourg" 45.8922 (-59.9855));
          showRules := true |}.
Proof.
  unfold handleGuess. cbn.
  rewrite haversineDistance_same, calculateScore_0. reflexivity.
Qed.

(** A last guess placed on the target, after 150 points: the session is
    done and the message shows 200. *)
Example handleGuess_last_round_on_target :
  handleGuess catalog
    (setTotalScore (fun _ => 150%Z) (setCurrentIndex (fun _ => 4%nat) initialState))
    45.508888 (-73.561668) =
  Some {| currentIndex := 4;
          score := ScoreText "You won with a score of 200!";
          totalScore := 200;
          scoreAnimation := "done-animation";
          isDone := 1;
          userGuess := Some (45.508888, -73.561668);
          showCorrect := true;
          correctLocation :=
            Some (mkLocation "End of St. Lawrence Seaway" 45.508888 (-73.561668));
          showRules := true |}.
Proof.
  unfold handleGuess. cbn.
  rewrite haversineDistance_same, calculateScore_0. reflexivity.
Qed.

(** * The shuffle *)

Section ShuffleFacts.

Context {T : Type}.
Variable random : nat -> Q.

(** [Math.random] returns a number of the interval from 0 (included) to 1
    (excluded). *)
Hypothesis random_range : forall k, (0 <= random k < 1)%Q.

(** The index drawn at counter [i] lies between [0] and [i]. *)
Lemma drawn_index_range i k :
  (0 <= Math.floor (random k * inject_Z (Z.of_nat (i + 1)))%Q <= Z.of_nat i)%Z.
Proof.
  unfold Math.floor.
  destruct (random_range k) as [Hlo Hhi].
  set (n := inject_Z (Z.of_nat (i + 1))).
  assert (Hpos : (0 < n)%Q).
  { unfold n. rewrite <- (Zlt_Qlt 0). lia. }
  split.
  - rewrite <- (Qfloor_Z 0). apply Qfloor_resp_le.
    apply Qmult_le_0_compat; [assumption | now apply Qlt_le_weak].
  - assert (Hlt : (inject_Z (Qfloor (random k * n)) < n)%Q).
    { apply Qle_lt_trans with (random k * n)%Q; [apply Qfloor_le |].
      rewrite <- (Qmult_1_l n) at 2. now apply Qmult_lt_compat_r. }
    subst n. rewrite <- Zlt_Qlt in Hlt. lia.
Qed.

Lemma swap_in_range (shuffled : list T) i j :
  (i < length shuffled)%nat ->
  (0 <= j <= Z.of_nat i)%Z ->
  exists shuffled',
    swap shuffled i j = Some shuffled' /\
    shuffled' ≡ₚ shuffled /\
    length shuffled' = length shuffled.
Proof.
  intros Hi Hj. unfold swap.
  destruct (Z.ltb_spec j 0) as [Hneg | _]; [lia |].
  destruct (lookup_lt_is_Some_2 shuffled (Z.to_nat j)) as [sj Hsj]; [lia |].
  destruct (lookup_lt_is_Some_2 shuffled i Hi) as [si Hsi].
  rewrite Hsj, Hsi. eexists. split; [reflexivity |]. split.
  - now apply Permutation_insert_swap.
  - now rewrite !length_insert.
Qed.

Lemma shuffle_loop_permutes i :
  forall k (shuffled : list T),
    (i = 0 \/ i < length shuffled)%nat ->
    exists out, shuffle_loop random i k shuffled = Some out /\ out ≡ₚ shuffled.
Proof.
  induction i as [| i IH]; intros k shuffled Hi.
  - exists shuffled. now split.
  - destruct Hi as [Hi | Hi]; [discriminate |].
    destruct (swap_in_range shuffled (S i)
                (Math.floor (random k * inject_Z (Z.of_nat (S i + 1)))%Q) Hi
                (drawn_index_range (S i) k))
      as (shuffled' & Hswap & Hperm & Hlen).
    destruct (IH (S k) shuffled') as (out & Hout & Hperm'); [right; lia |].
    exists out. cbn [shuffle_loop]. rewrite Hswap. split; [assumption |].
    now rewrite Hperm'.
Qed.

Lemma shuffleArray_permutes (array : list T) :
  exists shuffled,
    shuffleArray random array = Some shuffled /\ shuffled ≡ₚ array.
Proof.
  unfold shuffleArray. apply shuffle_loop_permutes.
  destruct array; cbn; [left | right]; lia.
Qed.

End ShuffleFacts.

(** The shuffle on concrete draws: always one half, always zero, and draws
    so close to one that every element stays in place. *)
Example shuffleArray_draws_one_half :
  shuffleArray (fun _ => 1 # 2) [1; 2; 3; 4; 5]%nat = Some [1; 4; 2; 5; 3]%nat.
Proof. reflexivity. Qed.

Example shuffleArray_draws_zero :
  shuffleArray (fun _ => 0%Q) [1; 2; 3; 4; 5]%nat = Some [2; 3; 4; 5; 1]%nat.
Proof. reflexivity. Qed.

Example shuffleArray_draws_near_one :
  shuffleArray (fun _ => 99 # 100) [1; 2; 3; 4; 5]%nat = Some [1; 2; 3; 4; 5]%nat.
Proof. reflexivity. Qed.

Example shuffleArray_empty :
  shuffleArray (fun _ => 1 # 2) ([] : list nat) = Some [].
Proof. reflexivity. Qed.

Lemma catalog_NoDup : NoDup catalog.
Proof.
  unfold catalog.
  repeat (apply NoDup_cons; split;
          [rewrite ?not_elem_of_cons; repeat split;
           try discriminate; apply not_elem_of_nil |]).
  apply NoDup_nil_2.
Qed.

(** * The score in double arithmetic *)

(** The partial sums of the series of [exp (- y)] enclose it, for [y] of
    [[0, 1]]: the series alternates and its terms decrease. *)
Lemma exp_opp_series y N :
  0 <= y <= 1 ->
  sum_f_R0 (tg_alt (fun k => y ^ k / INR (fact k))) (S (2 * N))
    <= exp (- y)
    <= sum_f_R0 (tg_alt (fun k => y ^ k / INR (fact k))) (2 * N).
Proof.
  intros [Hy0 Hy1]. apply alternated_series_ineq.
  - intros n. cbn beta.
    assert (Hf : 0 < INR (fact n)) by apply INR_fact_lt_0.
    assert (Hp : 0 <= y ^ n) by (apply pow_le; assumption).
    rewrite fact_simpl, mult_INR, S_INR. cbn [pow].
    assert (Hn : 0 <= INR n) by apply pos_INR.
    assert (Hq : 0 <= y ^ n / INR (fact n)).
    { apply Rmult_le_pos; [assumption | left; apply Rinv_0_lt_compat; assumption]. }
    replace (y * y ^ n / ((INR n + 1) * INR (fact n)))
      with (y / (INR n + 1) * (y ^ n / INR (fact n))) by (field; lra).
    assert (Ht : 0 < / (INR n + 1)) by (apply Rinv_0_lt_compat; lra).
    assert (Ht1 : / (INR n + 1) * (INR n + 1) = 1) by (apply Rinv_l; lra).
    assert (Ht2 : / (INR n + 1) <= 1) by nra.
    assert (Hr : 0 <= y / (INR n + 1) <= 1) by (unfold Rdiv; split; nra).
    nra.
  - apply cv_speed_pow_fact.
  - pose proof (proj2_sig (exist_exp (- y))) as Hexp.
    unfold exp_in, infinite_sum in Hexp. unfold exp.
    intros eps Heps. destruct (Hexp eps Heps) as [M HM].
    exists M. intros n Hn.
    replace (sum_f_R0 (tg_alt (fun k => y ^ k / INR (fact k))) n)
      with (sum_f_R0 (fun i => / INR (fact i) * (- y) ^ i) n);
      [apply HM; assumption |].
    apply sum_eq. intros i _. unfold tg_alt.
    replace (- y) with (-1 * y) by ring. rewrite Rpow_mult_distr. field.
    apply INR_fact_neq_0.
Qed.

Lemma exp_opp_enclosure y :
  0 <= y <= 1 ->
  1 - y + y ^ 2 / 2 - y ^ 3 / 6 + y ^ 4 / 24 - y ^ 5 / 120 + y ^ 6 / 720
    - y ^ 7 / 5040 + y ^ 8 / 40320 - y ^ 9 / 362880
    <= exp (- y)
    <= 1 - y + y ^ 2 / 2 - y ^ 3 / 6 + y ^ 4 / 24 - y ^ 5 / 120 + y ^ 6 / 720
       - y ^ 7 / 5040 + y ^ 8 / 40320.
Proof.
  intros Hy. pose proof (exp_opp_series y 4 Hy) as [Hlo Hhi].
  cbn [Nat.mul Nat.add sum_f_R0] in Hlo, Hhi. unfold tg_alt in Hlo, Hhi.
  rewrite (INR_fact 0 1), (INR_fact 1 1), (INR_fact 2 2), (INR_fact 3 6),
    (INR_fact 4 24), (INR_fact 5 120), (INR_fact 6 720), (INR_fact 7 5040),
    (INR_fact 8 40320) in Hlo, Hhi by (vm_compute; reflexivity).
  rewrite (INR_fact 9 362880) in Hlo by (vm_compute; reflexivity).
  split.
  - eapply Rle_trans; [| exact Hlo]. right. field.
  - eapply Rle_trans; [exact Hhi |]. right. field.
Qed.

(** Evaluates the doubles of the goal to the rationals they stand for. *)
Ltac double_value :=
  unfold Double.toR;
  repeat match goal with
  | |- context [Double.value ?x] =>
      let v := eval vm_compute in (Double.value x) in
      change (Double.value x) with v
  end;
  unfold Q2R; cbn [Qnum Qden].

Lemma tie_exponent_value :
  Double.toR (-10 * tie_distance / default_size_f)%float
  = - (5793624167011511 / 576460752303423488).
Proof. double_value. lra. Qed.

Lemma tie_distance_value :
  Double.toR tie_distance = 3594832902043071 / 1125899906842624.
Proof. double_value. lra. Qed.

Lemma tie_exp_value :
  Double.toR tie_exp = 4458563631096791 / 4503599627370496 /\
  Double.toR (next_up tie_exp) = 8917127262193583 / 9007199254740992.
Proof. double_value. split; lra. Qed.

(** The exponential of the exponent computed at [tie_distance] lies between
    [tie_exp] and the next double. *)
Lemma tie_exp_encloses :
  Double.toR tie_exp
    < exp (Double.toR (-10 * tie_distance / default_size_f)%float)
    < Double.toR (next_up tie_exp).
Proof.
  rewrite tie_exponent_value. destruct tie_exp_value as [-> ->].
  pose proof (exp_opp_enclosure (5793624167011511 / 576460752303423488)
                ltac:(lra)) as [Hlo Hhi].
  split; lra.
Qed.

Lemma tie_spec_points :
  49 < spec_points (Double.toR tie_distance) < 49.5.
Proof.
  rewrite tie_distance_value. unfold spec_points, spec_scale.
  pose proof (exp_opp_enclosure
                (10 * (3594832902043071 / 1125899906842624) / 3176.862)
                ltac:(lra)) as [Hlo Hhi].
  split; lra.
Qed.

Lemma calculateScore_f_tie (mathExp : float -> float) :
  mathExp (-10 * tie_distance / default_size_f)%float = tie_exp \/
  mathExp (-10 * tie_distance / default_size_f)%float = next_up tie_exp ->
  calculateScore_f mathExp tie_distance None = Integral 50.
Proof.
  intros H.
  change (calculateScore_f mathExp tie_distance None)
    with (Double.round
            (50 * mathExp (-10 * tie_distance / default_size_f))%float).
  destruct H as [-> | ->]; vm_compute; reflexivity.
Qed.

(** * The claims *)

(** C1: for a catalog [answers] of N sites (N at least 1, as in the program),
    N calls of [handleGuess] from the initial state leave the session done
    ([isDone = 1]) with [totalScore] the sum of the N round scores, and the
    message set at completion shows that same total; after fewer than N calls
    the session is not done. *)
Theorem session_completes_with_total
    (answers : list Location) (guesses : list (R * R)) :
  answers <> [] ->
  length guesses = length answers ->
  exists st,
    handleGuesses answers initialState guesses = Some st /\
    isDone st = 1%Z /\
    totalScore st = sumZ (roundScores answers guesses) /\
    score st = ScoreText (wonMessage (sumZ (roundScores answers guesses))) /\
    forall k, (k < length answers)%nat ->
      exists st_k,
        handleGuesses answers initialState (take k guesses) = Some st_k /\
        isDone st_k = 0%Z.
Proof.
  intros Hne Hlen.
  assert (Hpos : (0 < length answers)%nat)
    by (destruct answers; [contradiction | cbn; lia]).
  destruct (handleGuesses_to_the_end answers guesses initialState)
    as (st & Hrun & Hdone & Htot & Hscore); [reflexivity | exact Hpos | cbn; lia |].
  cbn in Htot. rewrite Htot in Hscore.
  exists st. repeat split; try assumption.
  intros k Hk.
  destruct (handleGuesses_running answers (take k guesses) initialState)
    as (st_k & Hrun_k & Hdone_k & _); [reflexivity | |].
  - rewrite length_take. cbn. lia.
  - now exists st_k.
Qed.

Lemma session_completes_with_total_witness :
  exists st,
    handleGuesses catalog initialState
      [(45, -60); (43, -79); (45, -75); (47, -71); (45, -73)] = Some st /\
    isDone st = 1%Z /\
    totalScore st =
      sumZ (roundScores catalog
              [(45, -60); (43, -79); (45, -75); (47, -71); (45, -73)]) /\
    score st =
      ScoreText (wonMessage (sumZ (roundScores catalog
              [(45, -60); (43, -79); (45, -75); (47, -71); (45, -73)]))) /\
    forall k, (k < length catalog)%nat ->
      exists st_k,
        handleGuesses catalog initialState
          (take k [(45, -60); (43, -79); (45, -75); (47, -71); (45, -73)])
          = Some st_k /\
        isDone st_k = 0%Z.
Proof.
  apply (session_completes_with_total catalog
           [(45, -60); (43, -79); (45, -75); (47, -71); (45, -73)]).
  - discriminate.
  - reflexivity.
Defined.

(** C2: a call of [handleGuess] while [isDone = 1] returns the state it was
    given, every field unchanged, and raises no error. *)
Theorem handleGuess_after_completion
    (answers : list Location) (st : AppState) (playerLat playerLon : R) :
  isDone st = 1%Z ->
  handleGuess answers st playerLat playerLon = Some st.
Proof.
  apply handleGuess_done.
Qed.

Lemma handleGuess_after_completion_witness :
  handleGuess catalog (setIsDone 1 initialState) 45 (-75)
  = Some (setIsDone 1 initialState).
Proof.
  apply (handleGuess_after_completion catalog (setIsDone 1 initialState) 45 (-75)).
  reflexivity.
Defined.




(** C4: on distances that are not negative the score does not increase with
    the distance, and it lies between 0 and 50. *)
Theorem calculateScore_monotone_bounded (d1 d2 : R) :
  0 <= d1 -> d1 <= d2 ->
  (calculateScore d2 None <= calculateScore d1 None)%Z /\
  (0 <= calculateScore d1 None <= 50)%Z /\
  (0 <= calculateScore d2 None <= 50)%Z.
Proof.
  intros H0 Hle. split; [| split].
  - now apply calculateScore_antitone.
  - now apply calculateScore_range.
  - apply calculateScore_range. lra.
Qed.

Lemma calculateScore_monotone_bounded_witness :
  (calculateScore 1000 None <= calculateScore 10 None)%Z /\
  (0 <= calculateScore 10 None <= 50)%Z /\
  (0 <= calculateScore 1000 None <= 50)%Z.
Proof.
  apply (calculateScore_monotone_bounded 10 1000); lra.
Defined.

(** C5, as the code has it: for target (46.8015, -71.2201) and guess
    (42.891411, -79.251964) the distance is about 767.5 km (between 767.4 and
    767.6) and its score is 4. *)
Theorem scenario_distance_and_score :
  767.4 < scenario_distance < 767.6 /\
  calculateScore scenario_distance None = 4%Z.
Proof.
  split; [apply scenario_distance_bounds | apply scenario_score].
Qed.

(** C5, as stated (about 706 km, about 6 points), fails: the distance is
    more than 60 km away from 706 and the score more than 1 away from 6. *)
Lemma scenario_not_706_km_6_points :
  ~ approx 60 scenario_distance 706 /\
  ~ approx 1 (IZR (calculateScore scenario_distance None)) 6.
Proof.
  pose proof scenario_distance_bounds as [Hlo Hhi].
  split; unfold approx.
  - rewrite Rabs_pos_eq by lra. lra.
  - rewrite scenario_score. rewrite Rabs_left by lra. lra.
Qed.

(** C6: the distance from a point to itself is 0 and a guess on the target,
    as on (45.422164, -75.691664), scores 50. *)
Theorem haversineDistance_self_is_zero (p_lat p_lon : R) :
  haversineDistance p_lat p_lon p_lat p_lon = 0 /\
  calculateScore (haversineDistance p_lat p_lon p_lat p_lon) None = 50%Z /\
  haversineDistance 45.422164 (-75.691664) 45.422164 (-75.691664) = 0 /\
  roundScoreOf rideau_canal (45.422164, -75.691664) = 50%Z.
Proof.
  repeat split.
  - apply haversineDistance_same.
  - rewrite haversineDistance_same. apply calculateScore_0.
  - apply haversineDistance_same.
  - unfold roundScoreOf, rideau_canal. cbn [lat lon fst snd].
    rewrite haversineDistance_same. apply calculateScore_0.
Qed.

(** C7: the distance is symmetric in its two points. *)
Theorem haversineDistance_symmetric (a_lat a_lon b_lat b_lon : R) :
  haversineDistance a_lat a_lon b_lat b_lon =
  haversineDistance b_lat b_lon a_lat a_lon.
Proof.
  apply haversineDistance_sym.
Qed.

(** C8: whatever the draws of [Math.random] (numbers of [[0, 1)]),
    [shuffleArray] returns a permutation of its argument, so a list with the
    same elements counted with multiplicity; in the round order [answers]
    every site of the catalog sits at exactly one index. *)
Theorem shuffleArray_is_permutation
    {T : Type} (random : nat -> Q) (array : list T) :
  (forall k, (0 <= random k < 1)%Q) ->
  (exists shuffled,
     shuffleArray random array = Some shuffled /\
     Permutation array shuffled /\
     length shuffled = length array /\
     forall x, x ∈ shuffled <-> x ∈ array) /\
  (exists answers,
     answers_of random = Some answers /\
     Permutation catalog answers /\
     forall site, site ∈ catalog ->
       exists i, answers !! i = Some site /\
                 forall j, answers !! j = Some site -> j = i).
Proof.
  intros Hrandom. split.
  - destruct (shuffleArray_permutes random Hrandom array) as (shuffled & Heq & Hperm).
    exists shuffled. repeat split.
    + assumption.
    + now symmetry.
    + now apply Permutation_length.
    + now rewrite Hperm.
    + now rewrite Hperm.
  - destruct (shuffleArray_permutes random Hrandom catalog) as (answers & Heq & Hperm).
    exists answers. repeat split.
    + assumption.
    + now symmetry.
    + intros site Hin.
      assert (Hnodup : NoDup answers).
      { rewrite Hperm. apply catalog_NoDup. }
      rewrite <- Hperm in Hin.
      apply list_elem_of_lookup in Hin as [i Hi].
      exists i. split; [assumption |].
      intros j Hj. now apply (NoDup_lookup answers j i site).
Qed.

Lemma shuffleArray_is_permutation_witness :
  (exists shuffled,
     shuffleArray (fun _ => 1 # 2) [1%nat; 2%nat; 3%nat] = Some shuffled /\
     Permutation [1%nat; 2%nat; 3%nat] shuffled /\
     length shuffled = length [1%nat; 2%nat; 3%nat] /\
     forall x, x ∈ shuffled <-> x ∈ [1%nat; 2%nat; 3%nat]) /\
  (exists answers,
     answers_of (fun _ => 1 # 2) = Some answers /\
     Permutation catalog answers /\
     forall site, site ∈ catalog ->
       exists i, answers !! i = Some site /\
                 forall j, answers !! j = Some site -> j = i).
Proof.
  apply (shuffleArray_is_permutation (fun _ => 1 # 2) [1%nat; 2%nat; 3%nat]).
  intros k. split; [discriminate | reflexivity].
Defined.

(** C9: in every state a session over a catalog that is not empty can
    reach, [currentIndex] is an index of [answers] as long as [isDone] is not
    1, and a call of [handleGuess] from there returns a state, again
    reachable, in which this holds again. *)
Theorem currentIndex_valid_while_running
    (answers : list Location) (st : AppState) (playerLat playerLon : R) :
  answers <> [] ->
  reachable answers st ->
  (isDone st <> 1%Z -> (currentIndex st < length answers)%nat) /\
  exists st',
    handleGuess answers st playerLat playerLon = Some st' /\
    reachable answers st' /\
    (isDone st' <> 1%Z -> (currentIndex st' < length answers)%nat).
Proof.
  intros Hne Hreach.
  pose proof (reachable_index_valid answers st Hne Hreach) as Hinv.
  split; [exact Hinv |].
  destruct (handleGuess_preserves_index_valid answers st playerLat playerLon Hinv)
    as (st' & Hstep & Hinv').
  exists st'. repeat split.
  - assumption.
  - now apply (reachable_guess answers st st' playerLat playerLon).
  - exact Hinv'.
Qed.

Lemma currentIndex_valid_while_running_witness :
  (isDone initialState <> 1%Z -> (currentIndex initialState < length catalog)%nat) /\
  exists st',
    handleGuess catalog initialState 45 (-75) = Some st' /\
    reachable catalog st' /\
    (isDone st' <> 1%Z -> (currentIndex st' < length catalog)%nat).
Proof.
  apply (currentIndex_valid_while_running catalog initialState 45 (-75)).
  - discriminate.
  - apply reachable_init.
Defined.

(** C10, as the code has it: [calculateScore] does not clamp its result to
    50: some negative distances, every one at or below -3.176862 km, give a
    score above 50; the range from 0 to 50 is that of the distances that are
    not negative, which the function does not check. *)
Theorem calculateScore_not_clamped (d : R) :
  (d <= - 3.176862 -> (50 < calculateScore d None)%Z) /\
  (0 <= d -> (0 <= calculateScore d None <= 50)%Z) /\
  (exists d', d' < 0 /\ (50 < calculateScore d' None)%Z).
Proof.
  split; [| split].
  - intros Hd. apply calculateScore_above_50. unfold default_size. lra.
  - apply calculateScore_range.
  - exists (- 3.176862). split; [lra |].
    apply calculateScore_above_50. unfold default_size. lra.
Qed.

Lemma calculateScore_not_clamped_witness :
  (50 < calculateScore (-100) None)%Z /\
  (0 <= calculateScore 100 None <= 50)%Z.
Proof.
  split.
  - apply (proj1 (calculateScore_not_clamped (-100))). lra.
  - apply (proj1 (proj2 (calculateScore_not_clamped 100))). lra.
Defined.

(** C10, as stated with "any d < 0", fails: one kilometre below zero the
    score is 50, not above. *)
Lemma calculateScore_minus_1_not_above_50 :
  -1 < 0 /\ ~ (50 < calculateScore (-1) None)%Z.
Proof.
  split; [lra |]. rewrite calculateScore_minus_1. lia.
Qed.

(** * Lemmas for the further properties *)

(** ** The distance as a great-circle distance *)

Lemma atan2_1_0 : Math.atan2 1 0 = PI / 2.
Proof.
  unfold Math.atan2.
  destruct (Rlt_dec 0 0) as [H | _]; [lra |].
  destruct (Rlt_dec 0 1) as [_ | H]; [reflexivity | lra].
Qed.

(** For [0 <= a <= 1] the angle [atan2 (sqrt a) (sqrt (1 - a))] lies in the
    closed first quadrant and its squared sine is [a]. *)
Lemma atan2_sqrt_closed a :
  0 <= a <= 1 ->
  0 <= Math.atan2 (sqrt a) (sqrt (1 - a)) <= PI / 2 /\
  sin (Math.atan2 (sqrt a) (sqrt (1 - a))) *
  sin (Math.atan2 (sqrt a) (sqrt (1 - a))) = a.
Proof.
  intros [[Hpos | Hzero] [Hlt | Hone]]; try lra.
  - destruct (atan2_sqrt a) as [[H1 H2] H3]; [lra |]. split; [lra | exact H3].
  - subst a. replace (1 - 1) with 0 by lra.
    rewrite sqrt_0, sqrt_1, atan2_1_0, sin_PI2.
    pose proof PI_RGT_0. repeat split; lra.
  - subst a. rewrite Rminus_0_r, sqrt_0, sqrt_1, atan2_0_1, sin_0.
    pose proof PI_RGT_0. repeat split; lra.
Qed.

Lemma validLatitude_radians lat :
  validLatitude lat -> - (PI / 2) <= lat * PI / 180 <= PI / 2.
Proof.
  intros [Hlo Hhi]. pose proof PI_RGT_0. split; nra.
Qed.

Lemma validLatitude_cos lat : validLatitude lat -> 0 <= cos (lat * PI / 180).
Proof.
  intros H. destruct (validLatitude_radians lat H). now apply cos_ge_0.
Qed.

(** [1 - 2 * a] is the cosine of the central angle. *)
Lemma haversine_a_central lat1 lon1 lat2 lon2 :
  1 - 2 * haversine_a lat1 lon1 lat2 lon2 =
  cosCentralAngle lat1 lon1 lat2 lon2.
Proof.
  unfold haversine_a, cosCentralAngle.
  set (φ1 := lat1 * PI / 180). set (φ2 := lat2 * PI / 180).
  set (Δλ := (lon2 - lon1) * PI / 180).
  replace ((lat2 - lat1) * PI / 180 / 2) with ((φ2 - φ1) / 2)
    by (unfold φ1, φ2; lra).
  pose proof (cos_2a_sin ((φ2 - φ1) / 2)) as Hφ.
  replace (2 * ((φ2 - φ1) / 2)) with (φ2 - φ1) in Hφ by lra.
  pose proof (cos_2a_sin (Δλ / 2)) as Hλ.
  replace (2 * (Δλ / 2)) with Δλ in Hλ by lra.
  rewrite cos_minus in Hφ. rewrite Hλ.
  set (s := sin ((φ2 - φ1) / 2)) in *. set (t := sin (Δλ / 2)) in *.
  nra.
Qed.

Lemma haversine_a_range lat1 lon1 lat2 lon2 :
  validLatitude lat1 -> validLatitude lat2 ->
  0 <= haversine_a lat1 lon1 lat2 lon2 <= 1.
Proof.
  intros H1 H2.
  pose proof (validLatitude_cos lat1 H1) as Hc1.
  pose proof (validLatitude_cos lat2 H2) as Hc2.
  pose proof (haversine_a_central lat1 lon1 lat2 lon2) as Hcentral.
  unfold cosCentralAngle in Hcentral.
  pose proof (COS_bound ((lon2 - lon1) * PI / 180)) as [Hl1 Hl2].
  pose proof (cos_plus (lat1 * PI / 180) (lat2 * PI / 180)) as Hplus.
  pose proof (COS_bound (lat1 * PI / 180 + lat2 * PI / 180)) as [Hp1 Hp2].
  split.
  - unfold haversine_a.
    set (s := sin ((lat2 - lat1) * PI / 180 / 2)).
    set (t := sin ((lon2 - lon1) * PI / 180 / 2)).
    assert (0 <= cos (lat1 * PI / 180) * cos (lat2 * PI / 180))
      by now apply Rmult_le_pos.
    nra.
  - set (c12 := cos (lat1 * PI / 180) * cos (lat2 * PI / 180)) in *.
    assert (0 <= c12) by (unfold c12; now apply Rmult_le_pos).
    nra.
Qed.

(** The central angle [c] of [haversineDistance]. *)
Lemma haversineDistance_central_angle lat1 lon1 lat2 lon2 :
  validLatitude lat1 -> validLatitude lat2 ->
  exists c,
    haversineDistance lat1 lon1 lat2 lon2 = 6371 * c /\
    0 <= c <= PI /\
    cos c = cosCentralAngle lat1 lon1 lat2 lon2.
Proof.
  intros H1 H2. rewrite haversineDistance_a.
  destruct (atan2_sqrt_closed _ (haversine_a_range lat1 lon1 lat2 lon2 H1 H2))
    as [[Hlo Hhi] Hsin].
  set (θ := Math.atan2 _ _) in *.
  exists (2 * θ). split; [lra |]. split; [lra |].
  rewrite cos_2a_sin, <- haversine_a_central. rewrite <- Hsin. ring.
Qed.

Lemma haversineDistance_range lat1 lon1 lat2 lon2 :
  validLatitude lat1 -> validLatitude lat2 ->
  0 <= haversineDistance lat1 lon1 lat2 lon2 <= 6371 * PI.
Proof.
  intros H1 H2.
  destruct (haversineDistance_central_angle lat1 lon1 lat2 lon2 H1 H2)
    as (c & -> & Hc & _).
  lra.
Qed.

Lemma cos_Rabs x : cos (Rabs x) = cos x.
Proof.
  unfold Rabs. destruct (Rcase_abs x); [apply cos_neg | reflexivity].
Qed.

Lemma haversineDistance_meridian lat1 lat2 lon :
  validLatitude lat1 -> validLatitude lat2 ->
  haversineDistance lat1 lon lat2 lon = 6371 * (Rabs (lat2 - lat1) * PI / 180).
Proof.
  intros H1 H2.
  destruct (haversineDistance_central_angle lat1 lon lat2 lon H1 H2)
    as (c & -> & Hc & Hcos).
  f_equal. apply cos_inj; [assumption | |].
  - pose proof (Rabs_pos (lat2 - lat1)). pose proof PI_RGT_0.
    destruct H1, H2.
    assert (Rabs (lat2 - lat1) <= 180) by (apply Rabs_le; lra).
    split; nra.
  - rewrite Hcos. unfold cosCentralAngle.
    replace ((lon - lon) * PI / 180) with 0 by lra. rewrite cos_0.
    replace (Rabs (lat2 - lat1) * PI / 180)
      with (Rabs ((lat2 - lat1) * PI / 180)).
    + rewrite cos_Rabs.
      replace ((lat2 - lat1) * PI / 180)
        with (lat2 * PI / 180 - lat1 * PI / 180) by lra.
      rewrite cos_minus. ring.
    + unfold Rdiv. rewrite !Rabs_mult.
      rewrite (Rabs_pos_eq PI) by (left; apply PI_RGT_0).
      rewrite (Rabs_pos_eq (/ 180)) by lra. reflexivity.
Qed.

Lemma haversine_a_longitude_wraps lat1 lon1 lat2 lon2 :
  haversine_a lat1 lon1 lat2 (lon2 + 360) = haversine_a lat1 lon1 lat2 lon2.
Proof.
  unfold haversine_a.
  replace ((lon2 + 360 - lon1) * PI / 180 / 2)
    with ((lon2 - lon1) * PI / 180 / 2 + PI) by lra.
  rewrite neg_sin. ring.
Qed.

Lemma haversineDistance_longitude_wraps lat1 lon1 lat2 lon2 :
  haversineDistance lat1 lon1 lat2 (lon2 + 360) =
  haversineDistance lat1 lon1 lat2 lon2.
Proof.
  now rewrite !haversineDistance_a, haversine_a_longitude_wraps.
Qed.

Lemma sin_sqr_le_sqr x : sin x * sin x <= x * x.
Proof.
  pose proof (SIN_bound x) as [Hlo Hhi].
  destruct (Rtotal_order x 0) as [Hneg | [-> | Hpos]].
  - pose proof (sin_gt_x x Hneg).
    destruct (Rle_lt_dec x (-1)); [nra |].
    assert (sin x < 0) by (apply sin_lt_0_var; pose proof PI_bounds; lra).
    nra.
  - rewrite sin_0. lra.
  - pose proof (sin_lt_x x Hpos).
    destruct (Rle_lt_dec 1 x); [nra |].
    assert (0 < sin x) by (apply sin_gt_0; pose proof PI_bounds; lra).
    nra.
Qed.

(** Two points less than 60 degrees apart in latitude and in longitude are
    away from each other's antipode. *)
Lemma nearby_awayFromAntipode lat1 lon1 lat2 lon2 :
  Rabs (lat2 - lat1) <= 60 -> Rabs (lon2 - lon1) <= 60 ->
  awayFromAntipode lat1 lon1 lat2 lon2.
Proof.
  intros Hlat' Hlon'. unfold awayFromAntipode, haversine_a.
  assert (Hlat : -60 <= lat2 - lat1 <= 60).
  { pose proof (Rle_abs (lat2 - lat1)). pose proof (Rle_abs (- (lat2 - lat1))) as H'.
    rewrite Rabs_Ropp in H'. lra. }
  assert (Hlon : -60 <= lon2 - lon1 <= 60).
  { pose proof (Rle_abs (lon2 - lon1)). pose proof (Rle_abs (- (lon2 - lon1))) as H'.
    rewrite Rabs_Ropp in H'. lra. }
  clear Hlat' Hlon'.
  pose proof PI_bounds as [Hpi0 Hpi1].
  pose proof (sin_sqr_le_sqr ((lat2 - lat1) * PI / 180 / 2)) as Hs1.
  pose proof (sin_sqr_le_sqr ((lon2 - lon1) * PI / 180 / 2)) as Hs2.
  pose proof (COS_bound (lat1 * PI / 180)) as [Hc1 Hc1'].
  pose proof (COS_bound (lat2 * PI / 180)) as [Hc2 Hc2'].
  set (s1 := sin ((lat2 - lat1) * PI / 180 / 2)) in *.
  set (s2 := sin ((lon2 - lon1) * PI / 180 / 2)) in *.
  set (c1 := cos (lat1 * PI / 180)) in *.
  set (c2 := cos (lat2 * PI / 180)) in *.
  assert (Hu : -0.5236 <= (lat2 - lat1) * PI / 180 / 2 <= 0.5236) by (split; nra).
  assert (Hv : -0.5236 <= (lon2 - lon1) * PI / 180 / 2 <= 0.5236) by (split; nra).
  set (u := (lat2 - lat1) * PI / 180 / 2) in *.
  set (v := (lon2 - lon1) * PI / 180 / 2) in *.
  assert (Hx1 : u * u <= 0.275) by nra.
  assert (Hx2 : v * v <= 0.275) by nra.
  assert (Hc : c1 * c2 <= 1) by nra.
  assert (Hq : 0 <= s2 * s2) by nra.
  replace (s1 * s1 + c1 * c2 * s2 * s2) with (s1 * s1 + c1 * c2 * (s2 * s2)) by ring.
  nra.
Qed.

(** ** The score for a size given by the caller *)

Lemma calculateScore_raw_size distance size :
  calculateScore distance (Some size) = Math.round (rawScore distance size).
Proof. reflexivity. Qed.

Lemma rawScore_antitone_size d1 d2 size :
  0 < size -> d1 <= d2 -> rawScore d2 size <= rawScore d1 size.
Proof.
  intros Hs H. unfold rawScore.
  apply Rmult_le_compat_l; [lra |]. apply exp_monotone.
  unfold Rdiv. apply Rmult_le_compat_r; [left; now apply Rinv_0_lt_compat | lra].
Qed.

Lemma rawScore_monotone_size d size1 size2 :
  0 <= d -> 0 < size1 -> size1 <= size2 -> rawScore d size1 <= rawScore d size2.
Proof.
  intros Hd Hs Hle. unfold rawScore.
  apply Rmult_le_compat_l; [lra |]. apply exp_monotone.
  assert (Hinv : / size2 <= / size1) by (apply Rinv_le_contravar; lra).
  unfold Rdiv. nra.
Qed.

Lemma rawScore_range d size : 0 <= d -> 0 < size -> 0 < rawScore d size <= 50.
Proof.
  intros Hd Hs. unfold rawScore.
  pose proof (exp_pos ((-10) * d / size)) as Hpos.
  assert (Hle : exp ((-10) * d / size) <= exp 0).
  { apply exp_monotone. unfold Rdiv.
    assert (0 < / size) by now apply Rinv_0_lt_compat. nra. }
  rewrite exp_0 in Hle. lra.
Qed.

(** ** The distances of full marks and of no marks *)

Lemma calculateScore_full_marks d :
  0 <= d <= 3.17 -> calculateScore d None = 50%Z.
Proof.
  intros [Hlo Hhi]. rewrite calculateScore_raw. apply round_eq.
  pose proof (rawScore_range d default_size Hlo default_size_pos) as [_ Hup].
  split; [| lra]. unfold rawScore.
  pose proof (exp_ineq1_le ((-10) * d / default_size)) as Hexp.
  assert (- / 100 <= (-10) * d / default_size) by (unfold default_size; lra).
  lra.
Qed.

Lemma calculateScore_below_full_marks d :
  3.21 <= d -> (calculateScore d None <= 49)%Z.
Proof.
  intros Hd. rewrite <- (round_eq 49.49985 49) by lra.
  rewrite calculateScore_raw. apply round_le.
  apply Rle_trans with (rawScore 3.21 default_size);
    [now apply rawScore_antitone |].
  unfold rawScore.
  assert (Hexp : exp ((-10) * 3.21 / default_size) <= 0.989997).
  { replace ((-10) * 3.21 / default_size) with (- (10 * 3.21 / default_size))
      by (unfold default_size; lra).
    apply exp_opp_upper; unfold default_size; lra. }
  lra.
Qed.

(** [exp (-10 * 1470 / 3176.862) < 0.01], by ten squarings. *)
Lemma exp_1470_upper : exp ((-10) * 1470 / default_size) < 0.01.
Proof.
  unfold default_size.
  set (s := 10 * 1470 / 3176.862 / 1024).
  assert (H0 : exp (- s) <= 0.995501569890)
    by (apply exp_opp_upper; unfold s; lra).
  pose proof (exp_double_upper _ _ 0.991023375654 H0 ltac:(lra)) as H1.
  pose proof (exp_double_upper _ _ 0.982127331093 H1 ltac:(lra)) as H2.
  pose proof (exp_double_upper _ _ 0.964574094480 H2 ltac:(lra)) as H3.
  pose proof (exp_double_upper _ _ 0.930403183742 H3 ltac:(lra)) as H4.
  pose proof (exp_double_upper _ _ 0.865650084318 H4 ltac:(lra)) as H5.
  pose proof (exp_double_upper _ _ 0.749350068480 H5 ltac:(lra)) as H6.
  pose proof (exp_double_upper _ _ 0.561525525131 H6 ltac:(lra)) as H7.
  pose proof (exp_double_upper _ _ 0.315310915374 H7 ltac:(lra)) as H8.
  pose proof (exp_double_upper _ _ 0.099420973354 H8 ltac:(lra)) as H9.
  pose proof (exp_double_upper _ _ 0.009884529943 H9 ltac:(lra)) as H10.
  replace ((-10) * 1470 / 3176.862)
    with (2 * (2 * (2 * (2 * (2 * (2 * (2 * (2 * (2 * (2 * - s))))))))))
    by (unfold s; lra).
  lra.
Qed.

(** [0.01 <= exp (-10 * 1460 / 3176.862)], by eleven squarings. *)
Lemma exp_1460_lower : 0.01 <= exp ((-10) * 1460 / default_size).
Proof.
  unfold default_size.
  set (s := 10 * 1460 / 3176.862 / 2048).
  assert (H0 : 0.997755991210 <= exp (- s))
    by (apply exp_opp_lower; unfold s; lra).
  pose proof (exp_double_lower _ _ 0.995517017995 H0 ltac:(lra) ltac:(lra)) as H1.
  pose proof (exp_double_lower _ _ 0.991054133117 H1 ltac:(lra) ltac:(lra)) as H2.
  pose proof (exp_double_lower _ _ 0.982188294768 H2 ltac:(lra) ltac:(lra)) as H3.
  pose proof (exp_double_lower _ _ 0.964693846379 H3 ltac:(lra) ltac:(lra)) as H4.
  pose proof (exp_double_lower _ _ 0.930634217241 H4 ltac:(lra) ltac:(lra)) as H5.
  pose proof (exp_double_lower _ _ 0.866080046299 H5 ltac:(lra) ltac:(lra)) as H6.
  pose proof (exp_double_lower _ _ 0.750094646597 H6 ltac:(lra) ltac:(lra)) as H7.
  pose proof (exp_double_lower _ _ 0.562641978853 H7 ltac:(lra) ltac:(lra)) as H8.
  pose proof (exp_double_lower _ _ 0.316565996367 H8 ltac:(lra) ltac:(lra)) as H9.
  pose proof (exp_double_lower _ _ 0.100214030055 H9 ltac:(lra) ltac:(lra)) as H10.
  pose proof (exp_double_lower _ _ 0.010042851819 H10 ltac:(lra) ltac:(lra)) as H11.
  replace ((-10) * 1460 / 3176.862)
    with (2 * (2 * (2 * (2 * (2 * (2 * (2 * (2 * (2 * (2 * (2 * - s)))))))))))
    by (unfold s; lra).
  lra.
Qed.

Lemma calculateScore_no_marks d : 1470 <= d -> calculateScore d None = 0%Z.
Proof.
  intros Hd. rewrite calculateScore_raw. apply round_eq.
  pose proof (rawScore_antitone 1470 d Hd) as Hup.
  pose proof exp_1470_upper as Hexp.
  assert (0 < rawScore d default_size)
    by (apply rawScore_range; [lra | apply default_size_pos]).
  unfold rawScore in *. lra.
Qed.

Lemma calculateScore_some_marks d :
  0 <= d <= 1460 -> (1 <= calculateScore d None)%Z.
Proof.
  intros [Hlo Hhi]. rewrite <- (round_eq (/ 2) 1) by lra.
  rewrite calculateScore_raw. apply round_le.
  pose proof (rawScore_antitone d 1460 Hhi) as Hdown.
  pose proof exp_1460_lower as Hexp.
  unfold rawScore in *. lra.
Qed.

(** ** The steps of the shuffle *)

Section ShuffleSteps.

Context {T : Type}.

Lemma swap_spec (l l1 : list T) i j :
  swap l i j = Some l1 ->
  (0 <= j)%Z /\
  exists sj si,
    l !! Z.to_nat j = Some sj /\ l !! i = Some si /\
    l1 = <[Z.to_nat j := si]> (<[i := sj]> l).
Proof.
  unfold swap. destruct (Z.ltb_spec j 0) as [| Hj]; [discriminate |].
  destruct (l !! Z.to_nat j) as [sj |] eqn:Hsj; [| discriminate].
  destruct (l !! i) as [si |] eqn:Hsi; [| discriminate].
  intros [= <-]. split; [assumption |]. now exists sj, si.
Qed.

(** After the swap, position [i] holds what position [j] held. *)
Lemma swap_lookup_i (l l1 : list T) i j :
  swap l i j = Some l1 -> l1 !! i = l !! Z.to_nat j.
Proof.
  intros (_ & sj & si & Hsj & Hsi & ->)%swap_spec.
  pose proof (lookup_lt_Some _ _ _ Hsi) as Hi.
  destruct (decide (Z.to_nat j = i)) as [-> | Hne].
  - rewrite list_lookup_insert_eq by now rewrite length_insert. congruence.
  - rewrite list_lookup_insert_ne by assumption.
    rewrite list_lookup_insert_eq by assumption. congruence.
Qed.

(** The swap leaves the other positions alone. *)
Lemma swap_lookup_other (l l1 : list T) i j p :
  swap l i j = Some l1 -> p <> i -> p <> Z.to_nat j -> l1 !! p = l !! p.
Proof.
  intros (_ & sj & si & Hsj & Hsi & ->)%swap_spec Hpi Hpj.
  now rewrite !list_lookup_insert_ne by congruence.
Qed.

Lemma swap_length (l l1 : list T) i j :
  swap l i j = Some l1 -> length l1 = length l.
Proof.
  intros (_ & sj & si & Hsj & Hsi & ->)%swap_spec. now rewrite !length_insert.
Qed.

(** The loop reads [Math.random] only through the indices it draws. *)
Lemma shuffle_loop_same_indices (random random' : nat -> Q) i :
  forall k (l : list T),
    (forall m, (m < i)%nat ->
       drawnIndex random (i - m) (k + m) = drawnIndex random' (i - m) (k + m)) ->
    shuffle_loop random i k l = shuffle_loop random' i k l.
Proof.
  induction i as [| i IH]; intros k l Hsame; [reflexivity |].
  cbn [shuffle_loop].
  pose proof (Hsame 0%nat ltac:(lia)) as H0.
  rewrite Nat.sub_0_r, Nat.add_0_r in H0. unfold drawnIndex in H0. rewrite H0.
  destruct (swap l (S i) _) as [l1 |]; [| reflexivity].
  apply IH. intros m Hm.
  specialize (Hsame (S m) ltac:(lia)).
  replace (k + S m)%nat with (S k + m)%nat in Hsame by lia.
  exact Hsame.
Qed.

Lemma shuffle_loop_same_draws (random random' : nat -> Q) i k (l : list T) :
  (forall m, (k <= m < k + i)%nat -> random m = random' m) ->
  shuffle_loop random i k l = shuffle_loop random' i k l.
Proof.
  intros Hsame. apply shuffle_loop_same_indices. intros m Hm.
  unfold drawnIndex. rewrite Hsame by lia. reflexivity.
Qed.

Section InRange.

Variable random : nat -> Q.
Hypothesis random_range : forall k, (0 <= random k < 1)%Q.

(** The loop entered with counter [i] leaves the positions above [i]
    alone. *)
Lemma shuffle_loop_frame i :
  forall k (l out : list T) p,
    shuffle_loop random i k l = Some out -> (i < p)%nat -> out !! p = l !! p.
Proof.
  induction i as [| i IH]; intros k l out p Hloop Hp.
  - cbn in Hloop. congruence.
  - cbn [shuffle_loop] in Hloop.
    destruct (swap l (S i) _) as [l1 |] eqn:Hswap; [| discriminate].
    rewrite (IH _ _ _ p Hloop) by lia.
    apply (swap_lookup_other _ _ _ _ _ Hswap); [lia |].
    pose proof (drawn_index_range random random_range (S i) k). lia.
Qed.

End InRange.

(** On a list without duplicates the result determines the indices drawn. *)
Lemma shuffle_loop_indices_determined (random random' : nat -> Q) i :
  (forall k, (0 <= random k < 1)%Q) ->
  (forall k, (0 <= random' k < 1)%Q) ->
  forall k (l : list T),
    NoDup l -> (i = 0 \/ i < length l)%nat ->
    shuffle_loop random i k l = shuffle_loop random' i k l ->
    forall m, (m < i)%nat ->
      drawnIndex random (i - m) (k + m) = drawnIndex random' (i - m) (k + m).
Proof.
  intros Hr Hr'. induction i as [| i IH]; intros k l Hnodup Hi Heq m Hm; [lia |].
  destruct Hi as [Hi | Hi]; [discriminate |].
  pose proof (drawn_index_range random Hr (S i) k) as Hj.
  pose proof (drawn_index_range random' Hr' (S i) k) as Hj'.
  destruct (swap_in_range l (S i) _ Hi Hj) as (l1 & Hswap & Hperm & Hlen).
  destruct (swap_in_range l (S i) _ Hi Hj') as (l1' & Hswap' & Hperm' & Hlen').
  cbn [shuffle_loop] in Heq. rewrite Hswap, Hswap' in Heq.
  destruct (shuffle_loop_permutes random Hr i (S k) l1) as (out & Hout & _);
    [right; lia |].
  rewrite Hout in Heq. symmetry in Heq.
  pose proof (shuffle_loop_frame random Hr i _ _ _ (S i) Hout ltac:(lia)) as Hp.
  pose proof (shuffle_loop_frame random' Hr' i _ _ _ (S i) Heq ltac:(lia)) as Hp'.
  rewrite (swap_lookup_i _ _ _ _ Hswap) in Hp.
  rewrite (swap_lookup_i _ _ _ _ Hswap') in Hp'.
  destruct (lookup_lt_is_Some_2 l
              (Z.to_nat (Math.floor (random k * inject_Z (Z.of_nat (S i + 1)))%Q)))
    as [x Hx]; [lia |].
  assert (Hsame : Math.floor (random k * inject_Z (Z.of_nat (S i + 1)))%Q =
                  Math.floor (random' k * inject_Z (Z.of_nat (S i + 1)))%Q).
  { apply Z2Nat.inj; [lia | lia |].
    apply (NoDup_lookup l _ _ x Hnodup Hx). congruence. }
  destruct m as [| m].
  - rewrite Nat.sub_0_r, Nat.add_0_r. exact Hsame.
  - rewrite <- Hsame, Hswap in Hswap'. injection Hswap' as <-.
    replace (k + S m)%nat with (S k + m)%nat by lia.
    apply (IH (S k) l1).
    + now rewrite Hperm.
    + right. lia.
    + now rewrite Hout, Heq.
    + lia.
Qed.

End ShuffleSteps.

Lemma drawFor_range i j : (j <= i)%nat -> (0 <= drawFor i j < 1)%Q.
Proof.
  intros Hj. unfold drawFor, Qle, Qlt. cbn.
  rewrite Zpos_P_of_succ_nat. lia.
Qed.

Lemma drawFor_floor i j :
  Math.floor (drawFor i j * inject_Z (Z.of_nat (i + 1)))%Q = Z.of_nat j.
Proof.
  unfold Math.floor, drawFor, Qfloor, Qmult, inject_Z. cbn [Qnum Qden].
  rewrite Pos.mul_1_r, Zpos_P_of_succ_nat.
  replace (Z.of_nat (i + 1)) with (Z.succ (Z.of_nat i)) by lia.
  apply Z.div_mul. lia.
Qed.

Section ShuffleReach.

Context {T : Type}.

(** The loop entered with counter [i] can bring the first [i + 1] elements
    into any order. *)
Lemma shuffle_loop_reaches i :
  forall k (l l' : list T),
    length l = length l' ->
    (i = 0 \/ i < length l)%nat ->
    take (S i) l ≡ₚ take (S i) l' ->
    drop (S i) l = drop (S i) l' ->
    exists random,
      (forall m, (0 <= random m < 1)%Q) /\
      shuffle_loop random i k l = Some l'.
Proof.
  induction i as [| i IH]; intros k l l' Hlen Hi Htake Hdrop.
  - exists (fun _ => 0%Q). split; [intros _; split; [discriminate | reflexivity] |].
    cbn. f_equal.
    destruct l as [| x l], l' as [| y l']; try discriminate; [reflexivity |].
    cbn in Htake, Hdrop. rewrite !take_0 in Htake.
    apply Permutation_singleton_inj in Htake. rewrite !drop_0 in Hdrop. congruence.
  - destruct Hi as [Hi | Hi]; [discriminate |].
    destruct (lookup_lt_is_Some_2 l' (S i)) as [x Hx]; [lia |].
    assert (Hin : x ∈ take (S (S i)) l).
    { rewrite Htake. apply list_elem_of_lookup. exists (S i).
      apply lookup_take_Some. split; [assumption | lia]. }
    apply list_elem_of_lookup in Hin as [j Hj].
    apply lookup_take_Some in Hj as [Hj Hjlt].
    destruct (swap_in_range l (S i) (Z.of_nat j) Hi ltac:(lia))
      as (l1 & Hswap & Hperm & Hlen1).
    assert (Hl1x : l1 !! S i = Some x).
    { rewrite (swap_lookup_i _ _ _ _ Hswap), Nat2Z.id. exact Hj. }
    assert (Hdrop1 : drop (S (S i)) l1 = drop (S (S i)) l).
    { apply list_eq. intros p. rewrite !lookup_drop.
      apply (swap_lookup_other _ _ _ _ _ Hswap); rewrite ?Nat2Z.id; lia. }
    destruct (IH (S k) l1 l') as (random' & Hrange & Hloop).
    + lia.
    + right. lia.
    + apply (Permutation_app_inv_r [x]).
      rewrite <- (take_S_r l1 (S i) x Hl1x), <- (take_S_r l' (S i) x Hx).
      rewrite <- Htake.
      apply (Permutation_app_inv_r (drop (S (S i)) l)).
      rewrite <- Hdrop1 at 1. now rewrite !take_drop.
    + rewrite (drop_S l1 x (S i) Hl1x), (drop_S l' x (S i) Hx).
      now rewrite Hdrop1, Hdrop.
    + exists (fun m => if decide (m = k) then drawFor (S i) j else random' m).
      split.
      * intros m. destruct (decide (m = k)); [apply drawFor_range; lia | apply Hrange].
      * cbn [shuffle_loop]. destruct (decide (k = k)) as [_ | Hne]; [| contradiction].
        rewrite drawFor_floor, Hswap. rewrite <- Hloop.
        apply shuffle_loop_same_draws. intros m Hm.
        destruct (decide (m = k)); [lia | reflexivity].
Qed.

Lemma shuffleArray_reaches (array target : list T) :
  array ≡ₚ target ->
  exists random,
    (forall m, (0 <= random m < 1)%Q) /\
    shuffleArray random array = Some target.
Proof.
  intros Hperm. unfold shuffleArray.
  pose proof (Permutation_length Hperm) as Hlen.
  apply shuffle_loop_reaches.
  - assumption.
  - destruct array; cbn; [left | right]; lia.
  - destruct array as [| x array].
    + apply Permutation_nil in Hperm as ->. reflexivity.
    + cbn [length]. rewrite Nat.sub_succ, Nat.sub_0_r.
      rewrite !take_ge by (cbn in *; lia). assumption.
  - destruct array as [| x array].
    + apply Permutation_nil in Hperm as ->. reflexivity.
    + cbn [length]. rewrite Nat.sub_succ, Nat.sub_0_r.
      rewrite !drop_ge by (cbn in *; lia). reflexivity.
Qed.

End ShuffleReach.

(** ** The session and what is shown *)

Section SessionMore.

Variable answers : list Location.

(** What an accepted guess records for the display. *)
Lemma handleGuess_display st playerLat playerLon correct st' :
  isDone st <> 1%Z ->
  answers !! currentIndex st = Some correct ->
  handleGuess answers st playerLat playerLon = Some st' ->
  userGuess st' = Some (playerLat, playerLon) /\
  correctLocation st' = Some correct /\
  showCorrect st' = true /\
  showRules st' = showRules st /\
  ((currentIndex st + 1 < length answers)%nat ->
     score st' = ScoreNumber (roundScoreOf correct (playerLat, playerLon))).
Proof.
  intros Hrun Hcorrect. unfold handleGuess.
  destruct (Z.eqb_spec (isDone st) 1) as [Heq | _]; [contradiction |].
  rewrite Hcorrect.
  destruct (Nat.leb_spec (length answers) (currentIndex st + 1));
    destruct (Nat.ltb_spec (currentIndex st + 1) (length answers));
    intros [= <-]; cbn; repeat split; intros; try lia; reflexivity.
Qed.

Lemma handleGuesses_app guesses1 guesses2 st :
  handleGuesses answers st (guesses1 ++ guesses2) =
  match handleGuesses answers st guesses1 with
  | Some st' => handleGuesses answers st' guesses2
  | None => None
  end.
Proof.
  revert st. induction guesses1 as [| [la lo] rest IH]; intros st; [reflexivity |].
  cbn. destruct (handleGuess answers st la lo); [apply IH | reflexivity].
Qed.

Lemma handleGuesses_done guesses st :
  isDone st = 1%Z -> handleGuesses answers st guesses = Some st.
Proof.
  intros Hdone. induction guesses as [| [la lo] rest IH]; [reflexivity |].
  cbn. now rewrite handleGuess_done.
Qed.

(** The index stays an index of [answers], also once the session is done. *)
Lemma reachable_index_in_range st :
  answers <> [] -> reachable answers st ->
  (currentIndex st < length answers)%nat.
Proof.
  intros Hne Hreach. induction Hreach as [| st st' la lo _ IH Hstep].
  - cbn. destruct answers; [contradiction | cbn; lia].
  - destruct (Z.eq_dec (isDone st) 1%Z) as [Hdone | Hrun].
    + rewrite handleGuess_done in Hstep by assumption. congruence.
    + destruct (lookup_lt_is_Some_2 answers (currentIndex st) IH) as [correct Hc].
      destruct (handleGuess_active answers st la lo correct Hrun Hc)
        as (st2 & Hstep2 & _ & Hnext & Hlast).
      rewrite Hstep in Hstep2. injection Hstep2 as <-.
      destruct (Nat.lt_ge_cases (currentIndex st + 1) (length answers)) as [Hlt | Hge].
      * destruct (Hnext Hlt) as [-> _]. lia.
      * destruct (Hlast Hge) as [-> _]. lia.
Qed.

Lemma reachable_overlay_consistent st :
  reachable answers st -> overlay_consistent answers st.
Proof.
  intros Hreach. induction Hreach as [| st st' la lo _ IH Hstep].
  - left. now cbn.
  - destruct (Z.eq_dec (isDone st) 1%Z) as [Hdone | Hrun].
    + rewrite handleGuess_done in Hstep by assumption. congruence.
    + destruct (answers !! currentIndex st) as [correct |] eqn:Hc.
      * destruct (handleGuess_display st la lo correct st' Hrun Hc Hstep)
          as (Hg & Hl & Hs & _).
        right. exists (la, lo), correct. repeat split; try assumption.
        now apply list_elem_of_lookup_2 in Hc.
      * unfold handleGuess in Hstep.
        destruct (Z.eqb_spec (isDone st) 1); [contradiction |].
        rewrite Hc in Hstep. discriminate.
Qed.

(** Guesses over a running session, with the total and what is shown. *)
Lemma handleGuesses_running_total guesses :
  forall st,
    isDone st = 0%Z ->
    (currentIndex st + length guesses < length answers)%nat ->
    exists st',
      handleGuesses answers st guesses = Some st' /\
      isDone st' = 0%Z /\
      currentIndex st' = (currentIndex st + length guesses)%nat /\
      totalScore st' =
        (totalScore st +
         sumZ (roundScores (drop (currentIndex st) answers) guesses))%Z.
Proof.
  induction guesses as [| [playerLat playerLon] rest IH]; intros st Hrun Hlen.
  - exists st. cbn. repeat split; try assumption; try lia.
    unfold roundScores. destruct (drop _ answers); cbn; lia.
  - cbn [length] in Hlen.
    destruct (lookup_lt_is_Some_2 answers (currentIndex st)) as [correct Hcorrect];
      [lia |].
    destruct (handleGuess_active answers st playerLat playerLon correct)
      as (st1 & Hstep & Htot & Hnext & _); [lia | assumption |].
    destruct Hnext as (Hci & Hd); [lia |].
    destruct (IH st1) as (st' & Hrest & Hdone & Hidx & Htot'); [lia | lia |].
    exists st'. cbn [handleGuesses]. rewrite Hstep.
    repeat split; try assumption.
    + cbn [length]. lia.
    + rewrite Htot', Htot, Hci, (drop_S _ _ _ Hcorrect).
      replace (currentIndex st + 1)%nat with (S (currentIndex st)) by lia.
      unfold roundScores, sumZ. cbn [zip_with foldr]. lia.
Qed.

End SessionMore.

Lemma roundScoreOf_range site guess :
  validLatitude (lat site) -> validLatitude (fst guess) ->
  (0 <= roundScoreOf site guess <= 50)%Z.
Proof.
  intros Hs Hg. unfold roundScoreOf. apply calculateScore_range.
  now apply haversineDistance_range.
Qed.

Lemma roundScoreOf_on_target site : roundScoreOf site (lat site, lon site) = 50%Z.
Proof.
  unfold roundScoreOf. cbn [fst snd].
  rewrite haversineDistance_same. apply calculateScore_0.
Qed.

Section SessionBounds.

Variable answers : list Location.
Hypothesis answers_valid : Forall (fun site => validLatitude (lat site)) answers.

Lemma handleGuess_total_bounded st playerLat playerLon :
  total_bounded answers st -> validLatitude playerLat ->
  exists st',
    handleGuess answers st playerLat playerLon = Some st' /\
    total_bounded answers st' /\
    (roundsPlayed answers st' <= roundsPlayed answers st + 1)%nat.
Proof.
  intros [Hidx Htot] Hlat.
  destruct (Z.eq_dec (isDone st) 1%Z) as [Hdone | Hrun].
  - exists st. rewrite handleGuess_done by assumption.
    split; [reflexivity | split; [split; assumption | lia]].
  - destruct (lookup_lt_is_Some_2 answers (currentIndex st) Hidx) as [correct Hc].
    pose proof (Forall_lookup_1 _ _ _ _ answers_valid Hc) as Hvalid.
    pose proof (roundScoreOf_range correct (playerLat, playerLon) Hvalid Hlat) as Hrs.
    destruct (handleGuess_active answers st playerLat playerLon correct Hrun Hc)
      as (st' & Hstep & Htot' & Hnext & Hlast).
    exists st'. split; [assumption |].
    unfold total_bounded, roundsPlayed in *.
    destruct (Z.eqb_spec (isDone st) 1) as [| _]; [contradiction |].
    destruct (Nat.lt_ge_cases (currentIndex st + 1) (length answers)) as [Hlt | Hge].
    + destruct (Hnext Hlt) as [Hci Hd]. rewrite Hci, Hd.
      destruct (Z.eqb_spec (isDone st) 1) as [| _]; [contradiction |].
      repeat split; lia.
    + destruct (Hlast Hge) as (Hci & Hd & _). rewrite Hci, Hd. cbn.
      repeat split; lia.
Qed.

Lemma handleGuesses_total_bounded guesses :
  Forall (fun guess => validLatitude (fst guess)) guesses ->
  forall st,
    total_bounded answers st ->
    exists st',
      handleGuesses answers st guesses = Some st' /\
      total_bounded answers st' /\
      (roundsPlayed answers st' <= roundsPlayed answers st + length guesses)%nat.
Proof.
  induction 1 as [| [la lo] rest Hg _ IH]; intros st Hb.
  - exists st. cbn. repeat split; try apply Hb. lia.
  - destruct (handleGuess_total_bounded st la lo Hb Hg) as (st1 & Hstep & Hb1 & Hp1).
    destruct (IH st1 Hb1) as (st' & Hrest & Hb' & Hp').
    exists st'. cbn [handleGuesses]. rewrite Hstep.
    repeat split; try apply Hb'; try assumption. cbn [length]. lia.
Qed.

End SessionBounds.

Section RoundTargets.

Variable answers : list Location.

(** The state after the guess of round [k]. *)
Lemma handleGuesses_round k guesses site guess :
  answers !! k = Some site -> guesses !! k = Some guess ->
  exists st,
    handleGuesses answers initialState (take (S k) guesses) = Some st /\
    correctLocation st = Some site /\
    userGuess st = Some guess /\
    showCorrect st = true /\
    totalScore st = sumZ (roundScores answers (take (S k) guesses)).
Proof.
  intros Hsite Hguess.
  pose proof (lookup_lt_Some _ _ _ Hsite) as Hk.
  pose proof (lookup_lt_Some _ _ _ Hguess) as Hkg.
  (* the state the round starts in *)
  destruct (handleGuesses_running answers (take k guesses) initialState)
    as (st_k & Hrun_k & Hdone_k & Hidx_k); [reflexivity | |].
  { rewrite length_take. cbn. lia. }
  rewrite length_take in Hidx_k. cbn in Hidx_k.
  replace (k `min` length guesses)%nat with k in Hidx_k by lia.
  destruct guess as [la lo].
  destruct (handleGuess_active answers st_k la lo site)
    as (st & Hstep & _); [lia | now rewrite Hidx_k |].
  destruct (handleGuess_display answers st_k la lo site st)
    as (Hg & Hl & Hs & _); [lia | now rewrite Hidx_k | assumption |].
  assert (Hrun : handleGuesses answers initialState (take (S k) guesses) = Some st).
  { rewrite (take_S_r _ _ _ Hguess), handleGuesses_app, Hrun_k. cbn. now rewrite Hstep. }
  exists st. repeat split; try assumption.
  (* the total, from the run as a whole *)
  assert (Hlen : length (take (S k) guesses) = S k) by (rewrite length_take; lia).
  destruct (Nat.lt_ge_cases (S k) (length answers)) as [Hlt | Hge].
  - destruct (handleGuesses_running_total answers (take (S k) guesses) initialState)
      as (st2 & Hrun2 & _ & _ & Htot);
      [reflexivity | rewrite Hlen; cbn; lia |].
    rewrite Hrun in Hrun2. injection Hrun2 as <-. exact Htot.
  - destruct (handleGuesses_to_the_end answers (take (S k) guesses) initialState)
      as (st2 & Hrun2 & _ & Htot & _);
      [reflexivity | cbn; lia | rewrite Hlen; cbn; lia |].
    rewrite Hrun in Hrun2. injection Hrun2 as <-. exact Htot.
Qed.

Lemma roundTarget_lookup guesses k :
  (k < length answers)%nat -> (k < length guesses)%nat ->
  roundTarget answers guesses k = answers !! k.
Proof.
  intros Hk Hkg.
  destruct (lookup_lt_is_Some_2 answers k Hk) as [site Hsite].
  destruct (lookup_lt_is_Some_2 guesses k Hkg) as [guess Hguess].
  destruct (handleGuesses_round k guesses site guess Hsite Hguess)
    as (st & Hrun & Hl & _).
  unfold roundTarget. now rewrite Hrun, Hl, Hsite.
Qed.

End RoundTargets.

(** * Further properties *)









(** X7: with the default size a guess within 3.17 km of the target gets the
    full 50 points, a guess 3.21 km or more away gets 49 at most. *)
Theorem calculateScore_full_marks_zone (d : R) :
  (0 <= d <= 3.17 -> calculateScore d None = 50%Z) /\
  (3.21 <= d -> (calculateScore d None <= 49)%Z).
Proof.
  split; [apply calculateScore_full_marks | apply calculateScore_below_full_marks].
Qed.

Lemma calculateScore_full_marks_zone_witness :
  calculateScore 3 None = 50%Z /\ (calculateScore 4 None <= 49)%Z.
Proof.
  split.
  - apply (proj1 (calculateScore_full_marks_zone 3)). lra.
  - apply (proj2 (calculateScore_full_marks_zone 4)). lra.
Defined.

(** X8: with the default size a guess 1470 km or more away gets 0 points, a
    guess within 1460 km gets 1 point at least. *)
Theorem calculateScore_zero_zone (d : R) :
  (1470 <= d -> calculateScore d None = 0%Z) /\
  (0 <= d <= 1460 -> (1 <= calculateScore d None)%Z).
Proof.
  split; [apply calculateScore_no_marks | apply calculateScore_some_marks].
Qed.

Lemma calculateScore_zero_zone_witness :
  calculateScore 2000 None = 0%Z /\ (1 <= calculateScore 1000 None)%Z.
Proof.
  split.
  - apply (proj1 (calculateScore_zero_zone 2000)). lra.
  - apply (proj2 (calculateScore_zero_zone 1000)). lra.
Defined.

(** X9: for a size given by the caller, positive, and distances that are
    not negative, the score lies between 0 and 50, does not increase with
    the distance and does not decrease with the size. *)
Theorem calculateScore_with_size (d1 d2 size1 size2 : R) :
  0 <= d1 -> d1 <= d2 -> 0 < size1 -> size1 <= size2 ->
  (0 <= calculateScore d2 (Some size1))%Z /\
  (calculateScore d2 (Some size1) <= calculateScore d1 (Some size1))%Z /\
  (calculateScore d1 (Some size1) <= calculateScore d1 (Some size2))%Z /\
  (calculateScore d1 (Some size2) <= 50)%Z.
Proof.
  intros Hd1 Hd Hs1 Hs. rewrite !calculateScore_raw_size.
  repeat split.
  - rewrite <- (round_IZR 0). apply round_le.
    pose proof (rawScore_range d2 size1 ltac:(lra) Hs1). lra.
  - now apply round_le, rawScore_antitone_size.
  - now apply round_le, rawScore_monotone_size.
  - rewrite <- (round_IZR 50). apply round_le.
    pose proof (rawScore_range d1 size2 Hd1 ltac:(lra)). lra.
Qed.

Lemma calculateScore_with_size_witness :
  (0 <= calculateScore 500 (Some 1000%R))%Z /\
  (calculateScore 500 (Some 1000%R) <= calculateScore 100 (Some 1000%R))%Z /\
  (calculateScore 100 (Some 1000%R) <= calculateScore 100 (Some 2000%R))%Z /\
  (calculateScore 100 (Some 2000%R) <= 50)%Z.
Proof.
  apply (calculateScore_with_size 100 500 1000 2000); lra.
Defined.

(** X10: [shuffleArray] reads [Math.random] [length - 1] times: two streams
    with the same first [length - 1] results give the same order, whatever
    comes after. *)
Theorem shuffleArray_reads_length_minus_1_draws
    {T : Type} (random random' : nat -> Q) (array : list T) :
  (forall k, (k < length array - 1)%nat -> random k = random' k) ->
  shuffleArray random array = shuffleArray random' array.
Proof.
  intros Hsame. unfold shuffleArray.
  apply shuffle_loop_same_draws. intros m Hm. apply Hsame. lia.
Qed.

Lemma shuffleArray_reads_length_minus_1_draws_witness :
  shuffleArray (fun _ => 1 # 2) [1; 2; 3]%nat =
  shuffleArray (fun k => if (k <? 2)%nat then 1 # 2 else 7 # 1) [1; 2; 3]%nat.
Proof.
  apply (shuffleArray_reads_length_minus_1_draws
           (fun _ => 1 # 2)
           (fun k => if (k <? 2)%nat then 1 # 2 else 7 # 1) [1; 2; 3]%nat).
  intros k Hk. cbn in Hk.
  destruct (Nat.ltb_spec k 2); [reflexivity | lia].
Defined.

(** X11: on an array without duplicates the order returned determines the
    index drawn at every step: two runs that draw a different index at some
    step return different orders. *)
Theorem shuffleArray_order_determines_indices
    {T : Type} (random random' : nat -> Q) (array : list T) (k : nat) :
  (forall m, (0 <= random m < 1)%Q) ->
  (forall m, (0 <= random' m < 1)%Q) ->
  NoDup array ->
  shuffleArray random array = shuffleArray random' array ->
  (k < length array - 1)%nat ->
  drawnIndex random (length array - 1 - k) k =
  drawnIndex random' (length array - 1 - k) k.
Proof.
  intros Hr Hr' Hnodup Heq Hk. unfold shuffleArray in Heq.
  apply (shuffle_loop_indices_determined random random' (length array - 1)
           Hr Hr' 0 array Hnodup); [right; lia | assumption | assumption].
Qed.

Lemma shuffleArray_order_determines_indices_witness :
  drawnIndex (fun _ => 9 # 20) (length [1; 2; 3]%nat - 1 - 0) 0 =
  drawnIndex (fun _ => 2 # 5) (length [1; 2; 3]%nat - 1 - 0) 0.
Proof.
  apply (shuffleArray_order_determines_indices
           (fun _ => 9 # 20) (fun _ => 2 # 5) [1; 2; 3]%nat 0).
  - intros m. split; [discriminate | reflexivity].
  - intros m. split; [discriminate | reflexivity].
  - repeat (apply NoDup_cons; split;
            [rewrite ?not_elem_of_cons; repeat split;
             try discriminate; apply not_elem_of_nil |]).
    apply NoDup_nil_2.
  - reflexivity.
  - cbn. lia.
Defined.

(** X12: every order of the array is one [shuffleArray] returns: for each
    permutation there are results of [Math.random], all of [[0, 1)], that
    produce it. *)
Theorem shuffleArray_reaches_every_permutation
    {T : Type} (array target : list T) :
  Permutation array target ->
  exists random,
    (forall m, (0 <= random m < 1)%Q) /\
    shuffleArray random array = Some target.
Proof.
  apply shuffleArray_reaches.
Qed.

Lemma shuffleArray_reaches_every_permutation_witness :
  exists random,
    (forall m, (0 <= random m < 1)%Q) /\
    shuffleArray random [1; 2; 3]%nat = Some [3; 1; 2]%nat.
Proof.
  apply (shuffleArray_reaches_every_permutation [1; 2; 3]%nat [3; 1; 2]%nat).
  symmetry. apply (Permutation_cons_append [1; 2]%nat 3%nat).
Defined.

(** X13: over a catalog that is not empty the render of [App] succeeds in
    every state a session reaches, also once the session is done:
    [answers[currentIndex]] is defined, its name is the prompt, and the
    prompt is hidden exactly when [isDone] is 1. *)
Theorem render_succeeds_in_reachable_states
    (answers : list Location) (st : AppState) :
  answers <> [] -> reachable answers st ->
  exists current v,
    answers !! currentIndex st = Some current /\
    render answers st = Some v /\
    view_prompt v = name current /\
    (view_promptHidden v = true <-> isDone st = 1%Z).
Proof.
  intros Hne Hreach.
  pose proof (reachable_index_in_range answers st Hne Hreach) as Hidx.
  destruct (lookup_lt_is_Some_2 answers (currentIndex st) Hidx) as [current Hc].
  unfold render. rewrite Hc. eexists current, _.
  split; [reflexivity |]. split; [reflexivity |]. split; [reflexivity |].
  cbn. apply Z.eqb_eq.
Qed.

Lemma render_succeeds_in_reachable_states_witness :
  exists current v,
    catalog !! currentIndex initialState = Some current /\
    render catalog initialState = Some v /\
    view_prompt v = name current /\
    (view_promptHidden v = true <-> isDone initialState = 1%Z).
Proof.
  apply (render_succeeds_in_reachable_states catalog initialState).
  - discriminate.
  - apply reachable_init.
Defined.

(** X14: in every state a session reaches the marker of the guess, the
    marker of the target, the line between them and the zoom on them are
    shown together or not at all; when shown, the target is a site of
    [answers] and line and zoom join the two markers. *)
Theorem overlay_shown_together (answers : list Location) (st : AppState) :
  answers <> [] -> reachable answers st ->
  exists v,
    render answers st = Some v /\
    ((view_guessMarker v = None /\ view_correctMarker v = None /\
      view_polyline v = None /\ view_zoom v = None) \/
     (exists guess correct,
        correct ∈ answers /\
        view_guessMarker v = Some guess /\
        view_correctMarker v = Some (lat correct, lon correct) /\
        view_polyline v = Some (guess, (lat correct, lon correct)) /\
        view_zoom v = Some (mkLatLng (fst guess) (snd guess),
                            mkLatLng (lat correct) (lon correct)))).
Proof.
  intros Hne Hreach.
  pose proof (reachable_index_in_range answers st Hne Hreach) as Hidx.
  destruct (lookup_lt_is_Some_2 answers (currentIndex st) Hidx) as [current Hc].
  unfold render. rewrite Hc. eexists. split; [reflexivity |]. cbn.
  destruct (reachable_overlay_consistent answers st Hreach)
    as [(Hg & Hl & Hs) | (guess & correct & Hg & Hl & Hs & Hin)];
    rewrite Hg, Hl, Hs.
  - left. now cbn.
  - right. exists guess, correct. destruct guess as [g0 g1]. now cbn.
Qed.

Lemma overlay_shown_together_witness :
  exists v,
    render catalog initialState = Some v /\
    ((view_guessMarker v = None /\ view_correctMarker v = None /\
      view_polyline v = None /\ view_zoom v = None) \/
     (exists guess correct,
        correct ∈ catalog /\
        view_guessMarker v = Some guess /\
        view_correctMarker v = Some (lat correct, lon correct) /\
        view_polyline v = Some (guess, (lat correct, lon correct)) /\
        view_zoom v = Some (mkLatLng (fst guess) (snd guess),
                            mkLatLng (lat correct) (lon correct)))).
Proof.
  apply (overlay_shown_together catalog initialState).
  - discriminate.
  - apply reachable_init.
Defined.

(** X15: the guess of round [k] is played against [answers[k]]: after it
    the state holds that site as [correctLocation] and the guess as
    [userGuess], both shown, and the total of the rounds so far. *)
Theorem round_played_against_its_site
    (answers : list Location) (guesses : list (R * R)) (k : nat)
    (site : Location) (guess : R * R) :
  answers !! k = Some site -> guesses !! k = Some guess ->
  exists st,
    handleGuesses answers initialState (take (S k) guesses) = Some st /\
    correctLocation st = Some site /\
    userGuess st = Some guess /\
    showCorrect st = true /\
    totalScore st = sumZ (roundScores answers (take (S k) guesses)).
Proof.
  apply handleGuesses_round.
Qed.

Lemma round_played_against_its_site_witness :
  exists st,
    handleGuesses catalog initialState
      (take 2 [(45, -60); (43, -79); (45, -75)]) = Some st /\
    correctLocation st =
      Some (mkLocation "Start of St. Lawrence Seaway" 42.891411 (-79.251964)) /\
    userGuess st = Some (43, -79) /\
    showCorrect st = true /\
    totalScore st =
      sumZ (roundScores catalog (take 2 [(45, -60); (43, -79); (45, -75)])).
Proof.
  apply (round_played_against_its_site catalog
           [(45, -60); (43, -79); (45, -75)] 1); reflexivity.
Defined.



(** X17: guesses that come after the last round change nothing: a session
    of as many guesses as there are sites ends in the same state with or
    without further guesses. *)
Theorem guesses_after_the_end_ignored
    (answers : list Location) (guesses extra : list (R * R)) :
  answers <> [] -> length guesses = length answers ->
  handleGuesses answers initialState (guesses ++ extra) =
  handleGuesses answers initialState guesses.
Proof.
  intros Hne Hlen.
  destruct (handleGuesses_to_the_end answers guesses initialState)
    as (st & Hrun & Hdone & _); [reflexivity | | cbn; lia |].
  { cbn. destruct answers; [contradiction | cbn; lia]. }
  rewrite handleGuesses_app, Hrun. now apply handleGuesses_done.
Qed.

Lemma guesses_after_the_end_ignored_witness :
  handleGuesses catalog initialState
    ([(45, -60); (43, -79); (45, -75); (47, -71); (45, -73)] ++ [(0, 0)]) =
  handleGuesses catalog initialState
    [(45, -60); (43, -79); (45, -75); (47, -71); (45, -73)].
Proof.
  apply (guesses_after_the_end_ignored catalog
           [(45, -60); (43, -79); (45, -75); (47, -71); (45, -73)] [(0, 0)]).
  - discriminate.
  - reflexivity.
Defined.

(** X18: closing the rules and a click on the map commute: the click gives
    the same session whether the rules were closed before or after it, and
    a click never opens or closes them. *)
Theorem closing_rules_commutes_with_click
    (answers : list Location) (st : AppState) (e_latlng : LatLng) :
  MapEvents_click (handleGuess answers (closeRules st)) e_latlng =
  closeRules <$> MapEvents_click (handleGuess answers st) e_latlng /\
  (forall st', MapEvents_click (handleGuess answers st) e_latlng = Some st' ->
     showRules st' = showRules st).
Proof.
  unfold MapEvents_click, handleGuess.
  change (isDone (closeRules st)) with (isDone st).
  change (currentIndex (closeRules st)) with (currentIndex st).
  change (totalScore (closeRules st)) with (totalScore st).
  destruct (isDone st =? 1)%Z.
  - split; [reflexivity |]. now intros st' [= <-].
  - destruct (answers !! currentIndex st) as [correct |]; [| now split].
    destruct (length answers <=? currentIndex st + 1)%nat;
      destruct (currentIndex st + 1 <? length answers)%nat;
      (split; [reflexivity |]); now intros st' [= <-].
Qed.

Lemma closing_rules_commutes_with_click_witness :
  MapEvents_click (handleGuess catalog (closeRules initialState))
    (mkLatLng 45 (-60)) =
  closeRules <$>
    MapEvents_click (handleGuess catalog initialState) (mkLatLng 45 (-60)).
Proof.
  apply (proj1 (closing_rules_commutes_with_click catalog initialState
                  (mkLatLng 45 (-60)))).
Defined.



(** X20: in a session over the shuffled catalog with one guess for each
    site, every site of the catalog is the target of exactly one round. *)
Theorem every_site_is_target_once
    (random : nat -> Q) (guesses : list (R * R)) :
  (forall k, (0 <= random k < 1)%Q) ->
  length guesses = length catalog ->
  exists answers,
    answers_of random = Some answers /\
    forall site, site ∈ catalog ->
      exists k,
        (k < length catalog)%nat /\
        roundTarget answers guesses k = Some site /\
        forall k', (k' < length catalog)%nat ->
          roundTarget answers guesses k' = Some site -> k' = k.
Proof.
  intros Hrandom Hlen.
  destruct (shuffleArray_permutes random Hrandom catalog) as (answers & Heq & Hperm).
  exists answers. split; [assumption |]. intros site Hin.
  pose proof (Permutation_length Hperm) as Hlen_a.
  assert (Hnodup : NoDup answers) by (rewrite Hperm; apply catalog_NoDup).
  rewrite <- Hperm in Hin. apply list_elem_of_lookup in Hin as [k Hk].
  pose proof (lookup_lt_Some _ _ _ Hk) as Hklt.
  exists k. split; [lia |]. split.
  - rewrite roundTarget_lookup by lia. assumption.
  - intros k' Hk' Htarget. rewrite roundTarget_lookup in Htarget by lia.
    now apply (NoDup_lookup answers k' k site).
Qed.

Lemma every_site_is_target_once_witness :
  exists answers,
    answers_of (fun _ => 1 # 2) = Some answers /\
    forall site, site ∈ catalog ->
      exists k,
        (k < length catalog)%nat /\
        roundTarget answers
          [(45, -60); (43, -79); (45, -75); (47, -71); (45, -73)] k = Some site /\
        forall k', (k' < length catalog)%nat ->
          roundTarget answers
            [(45, -60); (43, -79); (45, -75); (47, -71); (45, -73)] k' = Some site ->
          k' = k.
Proof.
  apply (every_site_is_target_once (fun _ => 1 # 2)
           [(45, -60); (43, -79); (45, -75); (47, -71); (45, -73)]).
  - intros k. split; [discriminate | reflexivity].
  - reflexivity.
Defined.
